(** * A calculator over IEEE 754 doubles: [Calc::BasicCalculator] and [Calc::Utils]

  The C++ sources are embedded shallowly.  A [double] is a primitive
  binary64 float, so [+], [-], [*], [/] and the comparisons below are the
  IEEE operations the compiled program performs.  An [int] is an integer
  of [Z] kept in the 32-bit signed range, with the wrap-around of the
  machine written out.  Member functions of [BasicCalculator] run in a
  small state-and-exception monad over the two data members.  Loops
  carry fuel, and a result [None] means the fuel ran out.

  Facts that need the meaning of a rounding, not only its evaluation,
  go through the specification [SpecFloat] of the primitive operations
  and an error analysis over the reals (module [Binary64]). *)

From Stdlib Require Import ZArith Zpow_facts Lia List String Bool Floats.
From Stdlib Require Import Reals Lra.
From Stdlib Require Uint63.
Import ListNotations.

Set Warnings "-inexact-float".

Local Open Scope Z_scope.

(** ** Machine integers *)

Module Int.

Definition min_signed : Z := - 2 ^ 31.
Definition max_signed : Z := 2 ^ 31 - 1.
Definition modulus : Z := 2 ^ 32.

Definition in_range (x : Z) : Prop := min_signed <= x <= max_signed.

(** Two's complement reduction of a mathematical integer. *)
Definition wrap (x : Z) : Z := (x - min_signed) mod modulus + min_signed.

Definition neg (x : Z) : Z := wrap (- x).
Definition add (x y : Z) : Z := wrap (x + y).

(** Conversion [int -> double]; exact, since 32 bits fit in 53. *)
Definition to_double (x : Z) : float :=
  if x <? 0 then PrimFloat.opp (PrimFloat.of_uint63 (Uint63.of_Z (- x)))
  else PrimFloat.of_uint63 (Uint63.of_Z x).

End Int.

(** ** Exceptions and outcomes *)

Inductive exn : Type :=
| invalid_argument (what : string)
| overflow_error (what : string)
| CalculatorError (what : string).

Inductive outcome (A : Type) : Type :=
| Return (a : A)
| Throw (e : exn).
Arguments Return {A} a.
Arguments Throw {A} e.

Definition returned {A} (o : outcome A) : bool :=
match o with Return _ => true | Throw _ => false end.

(** ** [<cmath>] *)

Module Std.

Definition abs (x : float) : float := PrimFloat.abs x.
Definition isinf (x : float) : bool := PrimFloat.is_infinity x.
Definition isnan (x : float) : bool := PrimFloat.is_nan x.
Definition isfinite (x : float) : bool := PrimFloat.is_finite x.

(** The macro [M_PI] of [<cmath>]: the double nearest to pi. *)
Definition M_PI : float := 3.14159265358979323846%float.

End Std.

(** ** [Calc::Utils] (math_utils.cpp) *)

Module Utils.

Local Open Scope float_scope.

(** Default argument [epsilon = 1e-9] of [isZero] and [areEqual]. *)
Definition default_epsilon : float := 1e-9.

Definition isZero (value epsilon : float) : bool :=
  Std.abs value <? epsilon.

Definition areEqual (a b epsilon : float) : bool :=
  Std.abs (a - b) <? epsilon.

(** The loop [for (int i = 2; i <= n; ++i) result *= i;].  [None] means
    that [fuel] iterations did not reach the exit. *)
Fixpoint factorial_loop (fuel : nat) (i n : Z) (result : float)
  : option float :=
  match fuel with
  | O => None
  | S fuel' =>
      if (i <=? n)%Z
      then factorial_loop fuel' (Int.add i 1) n (result * Int.to_double i)
      else Some result
  end.

Definition factorial (fuel : nat) (n : Z) : option (outcome float) :=
  if (n <? 0)%Z then
    Some (Throw (invalid_argument "Factorial undefined for negative numbers"))
  else if (n >? 170)%Z then
    Some (Throw (overflow_error "Factorial too large for double precision"))
  else if (n <=? 1)%Z then Some (Return 1.0)
  else option_map Return (factorial_loop fuel 2 n 1.0).

(** The loop of [power]: [while (exponent > 0) { if (exponent & 1) result
    *= current_power; current_power *= current_power; exponent >>= 1; }]. *)
Fixpoint power_loop (fuel : nat) (result current_power : float)
  (exponent : Z) : option float :=
  match fuel with
  | O => None
  | S fuel' =>
      if (exponent >? 0)%Z then
        let result :=
          if (Z.land exponent 1 =? 0)%Z then result
          else result * current_power in
        power_loop fuel' result (current_power * current_power)
          (Z.shiftr exponent 1)
      else Some result
  end.

(** [power], with one unit of fuel per call and per loop iteration. *)
Fixpoint power (fuel : nat) (base : float) (exponent : Z)
  : option (outcome float) :=
  match fuel with
  | O => None
  | S fuel' =>
      if (exponent =? 0)%Z then Some (Return 1.0)
      else if (exponent <? 0)%Z then
        if isZero base default_epsilon then
          Some (Throw (invalid_argument "Cannot raise zero to negative power"))
        else
          match power fuel' base (Int.neg exponent) with
          | Some (Return r) => Some (Return (1.0 / r))
          | Some (Throw e) => Some (Throw e)
          | None => None
          end
      else option_map Return (power_loop fuel' 1.0 base exponent)
  end.

Definition degreeToRadian (degrees : float) : float :=
  degrees * Std.M_PI / 180.0.

Definition radianToDegree (radians : float) : float :=
  radians * 180.0 / Std.M_PI.

Definition isFinite (value : float) : bool := Std.isfinite value.



End Utils.

(** ** [Calc::BasicCalculator] (basic_calculator.cpp) *)

Module BasicCalculator.

Local Open Scope float_scope.

(** The data members, with their default member initialisers. *)
Record t : Type := mk { memory_ : float; last_result_ : float }.

Definition init : t := {| memory_ := 0.0; last_result_ := 0.0 |}.

(** A member function: it reads and writes [*this] and either returns or
    throws.  The object outlives a throw, so the state comes back in
    both cases. *)
Definition M (A : Type) : Type := t -> outcome A * t.

Definition ret {A} (a : A) : M A := fun this => (Return a, this).
Definition throw {A} (e : exn) : M A := fun this => (Throw e, this).
Definition bind {A B} (m : M A) (k : A -> M B) : M B :=
  fun this =>
    match m this with
    | (Return a, this') => k a this'
    | (Throw e, this') => (Throw e, this')
    end.

Notation "x <- m ;; k" := (bind m (fun x => k))
  (at level 61, m at next level, right associativity).
Notation "m ;; k" := (bind m (fun _ => k))
  (at level 61, right associativity).

Definition updateLastResult (result : float) : M unit :=
  fun this => (Return tt, {| memory_ := memory_ this; last_result_ := result |}).

Definition add (a b : float) : M float :=
  let result := a + b in
  if Std.isinf result then throw (CalculatorError "Addition Overflow")
  else updateLastResult result ;; ret result.

Definition substract (a b : float) : M float :=
  let result := a - b in
  if Std.isinf result then throw (CalculatorError "Substraction Overflow")
  else updateLastResult result ;; ret result.

Definition multiply (a b : float) : M float :=
  let result := a * b in
  if Std.isinf result then throw (CalculatorError "Multiplication Overflow")
  else updateLastResult result ;; ret result.

Definition divide (a b : float) : M float :=
  if Utils.isZero b Utils.default_epsilon
  then throw (CalculatorError "Division by zero")
  else
    let result := a / b in
    updateLastResult result ;; ret result.

Definition memoryStore (value : float) : M unit :=
  fun this => (Return tt, {| memory_ := value; last_result_ := last_result_ this |}).

Definition memoryRecall : M float :=
  fun this => (Return (memory_ this), this).

Definition memoryClear : M unit :=
  fun this => (Return tt, {| memory_ := 0.0; last_result_ := last_result_ this |}).

Definition clear : M unit :=
  fun this => (Return tt, {| memory_ := memory_ this; last_result_ := 0.0 |}).

Definition getLastResult : M float :=
  fun this => (Return (last_result_ this), this).

(** The object after a successful arithmetic call that computed [result]. *)
Definition with_last_result (this : t) (result : float) : t :=
  {| memory_ := memory_ this; last_result_ := result |}.

(** The four arithmetic member functions, as [main] dispatches on them. *)
Inductive operation : Type := Add | Substract | Multiply | Divide.

Definition run (op : operation) : float -> float -> M float :=
  match op with
  | Add => add
  | Substract => substract
  | Multiply => multiply
  | Divide => divide
  end.

End BasicCalculator.

(** ** What the loops are meant to compute *)

Module Spec.

Local Open Scope float_scope.

(** [interval i k] is the list [i; i+1; ...; i+k-1]. *)
Fixpoint interval (i : Z) (k : nat) : list Z :=
  match k with
  | O => []
  | S k' => i :: interval (i + 1)%Z k'
  end.

(** The product [2 * 3 * ... * n] of doubles, taken left to right from 1. *)
Definition product_upto (n : Z) : float :=
  fold_left (fun acc i => acc * Int.to_double i)
    (interval 2 (Z.to_nat (n - 1))) 1.0.

Section Binexp.

Context {A : Type} (mul : A -> A -> A).

(** Binary exponentiation along the bits of the exponent, lowest first:
    a set bit multiplies the accumulator by the current power, and every
    bit but the highest squares the current power. *)
Fixpoint binexp (result current_power : A) (exponent : positive) : A :=
  match exponent with
  | xH => mul result current_power
  | xO e => binexp result (mul current_power current_power) e
  | xI e =>
      binexp (mul result current_power) (mul current_power current_power) e
  end.

End Binexp.

(** Loop iterations of [power] on a positive exponent: its bit length. *)
Definition iterations (exponent : positive) : nat := Pos.size_nat exponent.

End Spec.

(** ** The real value of a binary64 number *)

Module IEEE.

Local Open Scope R_scope.

Definition pow2 (e : Z) : R := powerRZ 2 e.

Definition sgn (s : bool) : R := if s then -1 else 1.

(** The real number a finite float stands for; 0 for the others. *)
Definition SF2R (x : spec_float) : R :=
  match x with
  | S754_finite s m e => sgn s * (IZR (Z.pos m) * pow2 e)
  | _ => 0
  end.

Definition is_fin (x : spec_float) : bool :=
  match x with
  | S754_zero _ | S754_finite _ _ _ => true
  | _ => false
  end.

(** Unit roundoff and half the smallest subnormal of binary64. *)
Definition u : R := pow2 (-53).
Definition eta : R := pow2 (-1075).

(** [inb m r s t]: the round and sticky bits [r], [s] say where [t] lies
    in the interval from [m] to [m + 1]. *)
Definition inb (m : Z) (r s : bool) (t : R) : Prop :=
  match r, s with
  | false, false => t = IZR m
  | false, true => IZR m < t < IZR m + / 2
  | true, false => t = IZR m + / 2
  | true, true => IZR m + / 2 < t < IZR m + 1
  end.

(** The record [mrs] at exponent [e] locates the real [v]. *)
Definition located (mrs : shr_record) (e : Z) (v : R) : Prop :=
  (0 <= shr_m mrs)%Z /\
  inb (shr_m mrs) (shr_r mrs) (shr_s mrs) (v * pow2 (- e)).

(** The last two steps of [binary_round_aux], after the first shift and
    the rounding of the mantissa to [m1]. *)
Definition round_finish (sx : bool) (m1 e' : Z) : spec_float :=
  let '(mrs'', e'') := shr_fexp prec emax m1 e' loc_Exact in
  match shr_m mrs'' with
  | Z0 => S754_zero sx
  | Zpos m =>
      if (e'' <=? emax - prec)%Z then S754_finite sx m e'' else S754_infinity sx
  | _ => S754_nan
  end.

(** [M_PI] and [180.0] as the specification sees them. *)
Definition SF_PI : spec_float := S754_finite false 7074237752028440 (-51).
Definition SF_180 : spec_float := S754_finite false 6333186975989760 (-45).

End IEEE.

(** ** Integers held by a float *)

Module Exact.

(** The factorial of the integers. *)
Fixpoint Zfact (k : nat) : Z :=
  match k with
  | O => 1
  | S k' => Z.of_nat k * Zfact k'
  end.

(** [SF_is_integer x z]: the float [x] stands for the integer [z]. *)
Definition SF_is_integer (x : spec_float) (z : Z) : bool :=
  match x with
  | S754_zero _ => (z =? 0)%Z
  | S754_finite s m e =>
      let v := if s then Z.neg m else Z.pos m in
      if (0 <=? e)%Z then (v * 2 ^ e =? z)%Z else (v =? z * 2 ^ (- e))%Z
  | _ => false
  end.

End Exact.

(** * Facts about the machine types *)

Module IntFacts.

Lemma wrap_small x : Int.in_range x -> Int.wrap x = x.
Proof.
  unfold Int.in_range, Int.wrap, Int.min_signed, Int.max_signed, Int.modulus.
  intros H. rewrite Z.mod_small; lia.
Qed.

Lemma add_1_small i : 0 <= i <= 171 -> Int.add i 1 = i + 1.
Proof.
  intros H. apply wrap_small.
  unfold Int.in_range, Int.min_signed, Int.max_signed. lia.
Qed.

Lemma neg_small x :
  Int.min_signed < x <= Int.max_signed -> Int.neg x = - x.
Proof.
  intros H. apply wrap_small. revert H.
  unfold Int.in_range, Int.min_signed, Int.max_signed. lia.
Qed.

(** Negating the most negative [int] wraps around to itself. *)
Lemma neg_min_signed : Int.neg Int.min_signed = Int.min_signed.
Proof. reflexivity. Qed.

Lemma neg_in_range x : Int.in_range (Int.neg x).
Proof.
  unfold Int.in_range, Int.neg, Int.wrap, Int.min_signed, Int.max_signed,
    Int.modulus.
  pose proof (Z.mod_pos_bound (- x - - 2 ^ 31) (2 ^ 32)). lia.
Qed.

End IntFacts.

Module FloatFacts.

Local Open Scope float_scope.

Lemma SFcompare_refl x : x <> S754_nan -> SFcompare x x = Some Eq.
Proof.
  destruct x as [s|s| |s m e]; simpl; intros H; try congruence.
  - now destruct s.
  - rewrite Z.compare_refl, Pos.compare_cont_refl. now destruct s.
Qed.

Lemma SFcompare_antisym x y :
  SFcompare y x = option_map CompOpp (SFcompare x y).
Proof.
  destruct x as [s|s| |s m e], y as [s'|s'| |s' m' e']; simpl;
    try reflexivity; try (now destruct s); try (now destruct s');
    try (now destruct s, s').
  destruct s, s'; try reflexivity;
    rewrite (Z.compare_antisym e e');
    destruct (e ?= e')%Z eqn:He; simpl; try reflexivity;
    change (Pos.compare_cont Eq m' m) with (m' ?= m)%positive;
    change (Pos.compare_cont Eq m m') with (m ?= m')%positive;
    rewrite (Pos.compare_antisym m m');
    now destruct (m ?= m')%positive.
Qed.

Lemma Prim2SF_nan x : is_nan x = true -> Prim2SF x = S754_nan.
Proof. unfold Prim2SF. now intros ->. Qed.

Lemma is_nan_Prim2SF x : is_nan x = true <-> Prim2SF x = S754_nan.
Proof.
  split; [apply Prim2SF_nan|].
  intros H. unfold is_nan. rewrite eqb_spec, H. reflexivity.
Qed.

Lemma is_infinity_Prim2SF x :
  is_infinity x = true <-> exists s, Prim2SF x = S754_infinity s.
Proof.
  unfold is_infinity. rewrite eqb_spec, abs_spec.
  change (Prim2SF infinity) with (S754_infinity false).
  destruct (Prim2SF x) as [s|s| |s m e]; simpl; split;
    try discriminate; try (intros [s' H]; discriminate); eauto.
Qed.

(** A NaN is not an infinity. *)
Lemma nan_not_infinity x : is_nan x = true -> is_infinity x = false.
Proof.
  intros H. destruct (is_infinity x) eqn:E; [|reflexivity].
  apply is_infinity_Prim2SF in E as [s E].
  apply is_nan_Prim2SF in H. congruence.
Qed.

Lemma finite_not_infinity x : is_finite x = true -> is_infinity x = false.
Proof.
  unfold is_finite. destruct (is_nan x), (is_infinity x); simpl; congruence.
Qed.

Lemma finite_not_nan x : is_finite x = true -> is_nan x = false.
Proof.
  unfold is_finite. destruct (is_nan x), (is_infinity x); simpl; congruence.
Qed.

(** The three classes partition the doubles. *)
Lemma classes x :
  is_finite x = true \/ is_infinity x = true \/ is_nan x = true.
Proof.
  unfold is_finite. destruct (is_nan x), (is_infinity x); simpl; auto.
Qed.

Lemma leb_not_ltb x y : (x <=? y) = true -> (y <? x) = false.
Proof.
  rewrite leb_spec, ltb_spec. unfold SFleb, SFltb.
  rewrite (SFcompare_antisym (Prim2SF x) (Prim2SF y)).
  now destruct (SFcompare (Prim2SF x) (Prim2SF y)) as [[ | | ]|].
Qed.

End FloatFacts.

Import BasicCalculator.

Local Open Scope float_scope.

(** * The arithmetic operations *)

(** The guard of [add], [substract] and [multiply]: the member function
    [op] computes [f a b], throws [CalculatorError what] on an infinity and
    otherwise stores and returns the value. *)
Definition guards_infinity (op : float -> float -> M float)
  (f : float -> float -> float) (what : string) : Prop :=
  forall a b this,
    (Std.isinf (f a b) = true ->
       op a b this = (Throw (CalculatorError what), this)) /\
    (Std.isfinite (f a b) = true ->
       op a b this = (Return (f a b), with_last_result this (f a b))) /\
    (Std.isnan (f a b) = true ->
       op a b this = (Return (f a b), with_last_result this (f a b))).

Lemma guards_infinity_intro op f what :
  (forall a b this,
     op a b this =
       if Std.isinf (f a b) then (Throw (CalculatorError what), this)
       else (Return (f a b), with_last_result this (f a b))) ->
  guards_infinity op f what.
Proof.
  intros Hop a b this. rewrite Hop. unfold Std.isinf, Std.isfinite, Std.isnan.
  repeat split; intros H.
  - now rewrite H.
  - now rewrite (FloatFacts.finite_not_infinity _ H).
  - now rewrite (FloatFacts.nan_not_infinity _ H).
Qed.

(** C1, as the code has it: each of [add], [substract] and [multiply]
    returns the IEEE sum, difference or product and stores it in
    [last_result_] when that value is finite; throws [CalculatorError] with
    its overflow message, leaving the object alone, when the value is an
    infinity; and when the value is a NaN it does not throw: the NaN is
    stored and returned like a finite value. *)
Theorem arithmetic_guards_infinity_only :
  guards_infinity add PrimFloat.add "Addition Overflow" /\
  guards_infinity substract PrimFloat.sub "Substraction Overflow" /\
  guards_infinity multiply PrimFloat.mul "Multiplication Overflow".
Proof.
  split; [|split]; apply guards_infinity_intro; intros a b this.
  - unfold add. now destruct (Std.isinf (a + b)).
  - unfold substract. now destruct (Std.isinf (a - b)).
  - unfold multiply. now destruct (Std.isinf (a * b)).
Qed.

(** C1 as stated fails: the sum of the two infinities is not a finite
    number, yet [add] throws nothing; it returns the NaN and stores it. *)
Lemma add_nan_is_not_rejected :
  Std.isfinite (infinity + neg_infinity) = false /\
  add infinity neg_infinity init =
    (Return nan, {| memory_ := 0; last_result_ := nan |}) /\
  ~ (exists e, fst (add infinity neg_infinity init) = Throw e).
Proof.
  repeat split. intros [e H]. discriminate H.
Qed.

Example multiply_zero_infinity :
  multiply 0 infinity init = (Return nan, {| memory_ := 0; last_result_ := nan |}).
Proof. reflexivity. Qed.

Example add_overflows :
  add 1e308 1e308 init = (Throw (CalculatorError "Addition Overflow"), init).
Proof. reflexivity. Qed.

Example add_2_3 : add 2 3 init = (Return 5, {| memory_ := 0; last_result_ := 5 |}).
Proof. reflexivity. Qed.

(** C2: [divide a b] throws exactly when [|b| < 1e-9], and then it throws
    [CalculatorError "Division by zero"] before dividing; in every other
    case, in particular whenever [1e-9 <= |b|], it returns [a / b] and
    stores it in [last_result_] with no check of the quotient, which may be
    an infinity. *)
Theorem divide_checks_divisor_only (a b : float) (this : t) :
  ((exists e, fst (divide a b this) = Throw e) <->
     (Std.abs b <? Utils.default_epsilon) = true) /\
  ((Std.abs b <? Utils.default_epsilon) = true ->
     divide a b this = (Throw (CalculatorError "Division by zero"), this)) /\
  ((Std.abs b <? Utils.default_epsilon) = false ->
     divide a b this = (Return (a / b), with_last_result this (a / b))) /\
  ((Utils.default_epsilon <=? Std.abs b) = true ->
     divide a b this = (Return (a / b), with_last_result this (a / b))) /\
  (exists a' b',
     (Utils.default_epsilon <=? Std.abs b') = true /\
     Std.isinf (a' / b') = true /\
     fst (divide a' b' this) = Return (a' / b')).
Proof.
  assert (Hlt : (Std.abs b <? Utils.default_epsilon) = true ->
                divide a b this = (Throw (CalculatorError "Division by zero"), this)).
  { intros H. unfold divide, Utils.isZero. now rewrite H. }
  assert (Hge : (Std.abs b <? Utils.default_epsilon) = false ->
                divide a b this = (Return (a / b), with_last_result this (a / b))).
  { intros H. unfold divide, Utils.isZero. now rewrite H. }
  repeat split; auto.
  - intros [e He]. destruct (Std.abs b <? Utils.default_epsilon); [reflexivity|].
    rewrite Hge in He by reflexivity. discriminate He.
  - intros H. exists (CalculatorError "Division by zero"). now rewrite (Hlt H).
  - intros H. apply Hge. now apply FloatFacts.leb_not_ltb.
  - exists 1e308, Utils.default_epsilon. repeat split.
Qed.

Example divide_by_zero :
  divide 1 0 init = (Throw (CalculatorError "Division by zero"), init).
Proof. reflexivity. Qed.

Example divide_by_1e_10 :
  divide 1 1e-10 init = (Throw (CalculatorError "Division by zero"), init).
Proof. reflexivity. Qed.

Example divide_by_epsilon :
  divide 1e308 1e-9 init =
    (Return infinity, {| memory_ := 0; last_result_ := infinity |}).
Proof. reflexivity. Qed.

Example divide_by_nan :
  divide 1 nan init = (Return nan, {| memory_ := 0; last_result_ := nan |}).
Proof. reflexivity. Qed.

(** C3: an arithmetic call that throws leaves the object as it was: both
    [memory_] and [last_result_] keep their values. *)
Theorem failed_operation_leaves_state (op : operation) (a b : float)
  (this this' : t) (e : exn) :
  run op a b this = (Throw e, this') -> this' = this.
Proof.
  destruct op; simpl; unfold add, substract, multiply, divide.
  - destruct (Std.isinf (a + b)); cbv; congruence.
  - destruct (Std.isinf (a - b)); cbv; congruence.
  - destruct (Std.isinf (a * b)); cbv; congruence.
  - destruct (Utils.isZero b Utils.default_epsilon); cbv; congruence.
Qed.

Lemma failed_operation_leaves_state_witness :
  run Divide 1 0 (mk 7 42) =
    (Throw (CalculatorError "Division by zero"), mk 7 42) /\
  mk 7 42 = mk 7 42.
Proof.
  split; [reflexivity|].
  apply (failed_operation_leaves_state Divide 1 0 (mk 7 42) (mk 7 42)
           (CalculatorError "Division by zero")).
  reflexivity.
Defined.

(** * The two data members are independent *)

Lemma run_memory (op : operation) (a b : float) (this : t) :
  memory_ (snd (run op a b this)) = memory_ this.
Proof.
  destruct op; simpl; unfold add, substract, multiply, divide.
  - now destruct (Std.isinf (a + b)).
  - now destruct (Std.isinf (a - b)).
  - now destruct (Std.isinf (a * b)).
  - now destruct (Utils.isZero b Utils.default_epsilon).
Qed.

(** C7: [add], [substract], [multiply], [divide] and [clear] leave
    [memory_] unchanged, as do the two accessors; [memoryStore],
    [memoryRecall] and [memoryClear] leave [last_result_] unchanged. *)
Theorem memory_and_last_result_are_independent (a b v : float) (this : t) :
  (forall op, memory_ (snd (run op a b this)) = memory_ this) /\
  memory_ (snd (clear this)) = memory_ this /\
  memory_ (snd (getLastResult this)) = memory_ this /\
  memory_ (snd (memoryRecall this)) = memory_ this /\
  last_result_ (snd (memoryStore v this)) = last_result_ this /\
  last_result_ (snd (memoryRecall this)) = last_result_ this /\
  last_result_ (snd (memoryClear this)) = last_result_ this.
Proof.
  repeat split. intros op. apply run_memory.
Qed.

(** C8: after [memoryStore v], [memoryRecall] returns [v] itself; after
    [memoryClear] it returns 0; after [clear], [getLastResult] returns 0;
    and none of the five calls throws, in any state. *)
Theorem memory_round_trip (v : float) (this : t) :
  fst ((memoryStore v ;; memoryRecall) this) = Return v /\
  fst ((memoryClear ;; memoryRecall) this) = Return 0 /\
  fst ((clear ;; getLastResult) this) = Return 0 /\
  returned (fst (memoryStore v this)) = true /\
  returned (fst (memoryRecall this)) = true /\
  returned (fst (memoryClear this)) = true /\
  returned (fst (clear this)) = true /\
  returned (fst (getLastResult this)) = true.
Proof. repeat split. Qed.

(** [clear] resets the result and keeps the memory: store, compute, clear. *)
Example clear_keeps_memory :
  (memoryStore 7 ;; add 2 3 ;; clear ;;
   m <- memoryRecall ;; r <- getLastResult ;; ret (m, r)) init
  = (Return (7, 0), {| memory_ := 7; last_result_ := 0 |}).
Proof. reflexivity. Qed.

(** * [factorial] *)

Lemma In_interval (n : Z) : forall (k : nat) (i : Z),
  (i <= n < i + Z.of_nat k)%Z -> In n (Spec.interval i k).
Proof.
  induction k as [|k IH]; intros i H; simpl; [lia|].
  destruct (Z.eq_dec i n) as [->|Hne]; [now left|].
  right. apply IH. lia.
Qed.

Lemma factorial_loop_interval : forall (k : nat) (i n : Z) (result : float)
    (fuel : nat),
  n = (i + Z.of_nat k - 1)%Z -> (0 <= i)%Z -> (n <= 170)%Z ->
  (k < fuel)%nat ->
  Utils.factorial_loop fuel i n result =
    Some (fold_left (fun acc j => acc * Int.to_double j)
            (Spec.interval i k) result).
Proof.
  induction k as [|k IH]; intros i n result fuel Hn Hi H170 Hfuel;
    (destruct fuel as [|fuel]; [lia|]); simpl.
  - destruct (Z.leb_spec i n); [lia|reflexivity].
  - destruct (Z.leb_spec i n); [|lia].
    rewrite IntFacts.add_1_small by lia.
    apply IH; lia.
Qed.

Lemma factorial_returns_product (n : Z) (fuel : nat) :
  (1 < n <= 170)%Z -> (Z.to_nat n <= fuel)%nat ->
  Utils.factorial fuel n = Some (Return (Spec.product_upto n)).
Proof.
  intros Hn Hfuel. unfold Utils.factorial.
  destruct (Z.ltb_spec n 0); [lia|].
  destruct (Z.gtb_spec n 170); [lia|].
  destruct (Z.leb_spec n 1); [lia|].
  unfold Spec.product_upto.
  rewrite (factorial_loop_interval (Z.to_nat (n - 1)) 2 n 1 fuel);
    [reflexivity|lia..].
Qed.

Lemma factorial_0_1 (n : Z) (fuel : nat) :
  (0 <= n <= 1)%Z -> Utils.factorial fuel n = Some (Return 1).
Proof.
  intros H. unfold Utils.factorial.
  destruct (Z.ltb_spec n 0); [lia|].
  destruct (Z.gtb_spec n 170); [lia|].
  destruct (Z.leb_spec n 1); [reflexivity|lia].
Qed.

(** C4: [factorial n] throws [std::invalid_argument] for [n < 0] and
    [std::overflow_error] for [n > 170], returns 1 for [0 <= n <= 1], and
    for [1 < n <= 170] its loop ends and returns the product
    [2 * 3 * ... * n] of doubles taken left to right; [factorial 5] is 120. *)
Theorem factorial_contract (n : Z) :
  ((n < 0)%Z -> forall fuel,
     Utils.factorial fuel n =
       Some (Throw (invalid_argument "Factorial undefined for negative numbers"))) /\
  ((170 < n)%Z -> forall fuel,
     Utils.factorial fuel n =
       Some (Throw (overflow_error "Factorial too large for double precision"))) /\
  ((0 <= n <= 1)%Z -> forall fuel, Utils.factorial fuel n = Some (Return 1)) /\
  ((1 < n <= 170)%Z -> forall fuel, (Z.to_nat n <= fuel)%nat ->
     Utils.factorial fuel n = Some (Return (Spec.product_upto n))) /\
  Utils.factorial 5 5 = Some (Return 120).
Proof.
  repeat split.
  - intros H fuel. unfold Utils.factorial.
    destruct (Z.ltb_spec n 0); [reflexivity|lia].
  - intros H fuel. unfold Utils.factorial.
    destruct (Z.ltb_spec n 0); [lia|].
    destruct (Z.gtb_spec n 170); [reflexivity|lia].
  - intros H fuel. now apply factorial_0_1.
  - intros H fuel Hfuel. now apply factorial_returns_product.
Qed.

Example factorial_minus_1 :
  Utils.factorial 0 (-1) =
    Some (Throw (invalid_argument "Factorial undefined for negative numbers")).
Proof. reflexivity. Qed.

Example factorial_171 :
  Utils.factorial 0 171 =
    Some (Throw (overflow_error "Factorial too large for double precision")).
Proof. reflexivity. Qed.

Example factorial_170 : Utils.factorial 170 170 = Some (Return 7.257415615307994e+306).
Proof. reflexivity. Qed.

(** One more iteration of the loop would leave the doubles. *)
Example factorial_loop_171 : Utils.factorial_loop 171 2 171 1 = Some infinity.
Proof. reflexivity. Qed.

Definition finite_at_least_1 (r : float) : bool :=
  Std.isfinite r && (1 <=? r).

Lemma product_upto_table :
  forallb (fun n => finite_at_least_1 (Spec.product_upto n))
    (Spec.interval 0 171) = true.
Proof. vm_compute. reflexivity. Qed.

(** C10: for [0 <= n <= 170], [factorial n] returns a finite double that
    is at least 1: inside the accepted domain the product never reaches
    infinity. *)
Theorem factorial_finite_in_domain (n : Z) (fuel : nat) :
  (0 <= n <= 170)%Z -> (170 <= fuel)%nat ->
  exists r,
    Utils.factorial fuel n = Some (Return r) /\
    Std.isfinite r = true /\ (1 <=? r) = true.
Proof.
  intros Hn Hfuel.
  destruct (Z_le_gt_dec n 1) as [Hsmall|Hbig].
  - exists 1. split; [|split; reflexivity].
    now apply factorial_0_1.
  - exists (Spec.product_upto n). split.
    + apply factorial_returns_product; lia.
    + pose proof product_upto_table as Htab.
      rewrite forallb_forall in Htab.
      specialize (Htab n (In_interval n 171 0 ltac:(lia))).
      unfold finite_at_least_1 in Htab.
      now apply andb_true_iff in Htab.
Qed.

Lemma factorial_finite_in_domain_witness :
  exists r,
    Utils.factorial 170 170 = Some (Return r) /\
    Std.isfinite r = true /\ (1 <=? r) = true.
Proof.
  apply (factorial_finite_in_domain 170 170); [lia|lia].
Defined.

(** * [power] *)

(** In exact arithmetic, binary exponentiation is exponentiation. *)
Lemma binexp_exact : forall (e : positive) (result current_power : Z),
  Spec.binexp Z.mul result current_power e
  = (result * current_power ^ Z.pos e)%Z.
Proof.
  induction e as [e IH|e IH|]; intros result c; simpl Spec.binexp.
  - rewrite IH, Pos2Z.inj_xI, Z.pow_add_r, Z.pow_twice_r, Z.pow_1_r,
      Z.pow_mul_l by lia. ring.
  - rewrite IH, Pos2Z.inj_xO, Z.pow_twice_r, Z.pow_mul_l. reflexivity.
  - now rewrite Z.pow_1_r.
Qed.

(** The loop of [power] walks the bits of a positive exponent. *)
Lemma power_loop_binexp : forall (e : positive) (result current_power : float)
    (fuel : nat),
  (Spec.iterations e < fuel)%nat ->
  Utils.power_loop fuel result current_power (Z.pos e)
  = Some (Spec.binexp PrimFloat.mul result current_power e).
Proof.
  unfold Spec.iterations.
  induction e as [e IH|e IH|]; intros result c fuel Hfuel;
    (destruct fuel as [|fuel]; [simpl in Hfuel; lia|]);
    simpl in Hfuel.
  - change (Utils.power_loop (S fuel) result c (Z.pos e~1))
      with (Utils.power_loop fuel (result * c) (c * c) (Z.pos e)).
    apply IH. lia.
  - change (Utils.power_loop (S fuel) result c (Z.pos e~0))
      with (Utils.power_loop fuel result (c * c) (Z.pos e)).
    apply IH. lia.
  - destruct fuel as [|fuel]; [lia|]. reflexivity.
Qed.

Lemma iterations_bound (e : positive) :
  (Z.pos e <= Int.max_signed)%Z -> (Spec.iterations e <= 31)%nat.
Proof.
  unfold Int.max_signed, Spec.iterations. intros H.
  apply Zpower2_Psize. change (Z.of_nat 31) with 31%Z. lia.
Qed.

(** The bit length of [e] is [floor (log2 e) + 1]. *)
Lemma iterations_log2 (e : positive) :
  (Spec.iterations e <= Z.to_nat (Z.log2 (Z.pos e)) + 1)%nat.
Proof.
  unfold Spec.iterations. apply Zpower2_Psize.
  pose proof (Z.log2_nonneg (Z.pos e)) as H0.
  pose proof (Z.log2_spec (Z.pos e) ltac:(lia)) as [_ H].
  replace (Z.of_nat (Z.to_nat (Z.log2 (Z.pos e)) + 1))
    with (Z.succ (Z.log2 (Z.pos e))) by lia.
  exact H.
Qed.

Lemma power_exponent_0 (base : float) (fuel : nat) :
  Utils.power (S fuel) base 0 = Some (Return 1).
Proof. reflexivity. Qed.

Lemma power_positive (base : float) (e : positive) (fuel : nat) :
  (Spec.iterations e + 1 < fuel)%nat ->
  Utils.power fuel base (Z.pos e)
  = Some (Return (Spec.binexp PrimFloat.mul 1 base e)).
Proof.
  intros Hfuel. destruct fuel as [|fuel]; [lia|].
  change (Utils.power (S fuel) base (Z.pos e))
    with (option_map Return (Utils.power_loop fuel 1 base (Z.pos e))).
  rewrite power_loop_binexp by lia. reflexivity.
Qed.

Lemma power_negative_zero_base (base : float) (e : positive) (fuel : nat) :
  Utils.isZero base Utils.default_epsilon = true ->
  Utils.power (S fuel) base (Z.neg e)
  = Some (Throw (invalid_argument "Cannot raise zero to negative power")).
Proof.
  intros Hz.
  change (Utils.power (S fuel) base (Z.neg e))
    with (if Utils.isZero base Utils.default_epsilon
          then Some (Throw (invalid_argument "Cannot raise zero to negative power"))
          else match Utils.power fuel base (Int.neg (Z.neg e)) with
               | Some (Return r) => Some (Return (1 / r))
               | Some (Throw x) => Some (Throw x)
               | None => None
               end).
  now rewrite Hz.
Qed.

Lemma power_negative_step (base : float) (e : positive) (fuel : nat) :
  Utils.isZero base Utils.default_epsilon = false ->
  Utils.power (S fuel) base (Z.neg e)
  = match Utils.power fuel base (Int.neg (Z.neg e)) with
    | Some (Return r) => Some (Return (1 / r))
    | Some (Throw x) => Some (Throw x)
    | None => None
    end.
Proof.
  intros Hz.
  change (Utils.power (S fuel) base (Z.neg e))
    with (if Utils.isZero base Utils.default_epsilon
          then Some (Throw (invalid_argument "Cannot raise zero to negative power"))
          else match Utils.power fuel base (Int.neg (Z.neg e)) with
               | Some (Return r) => Some (Return (1 / r))
               | Some (Throw x) => Some (Throw x)
               | None => None
               end).
  now rewrite Hz.
Qed.

(** Above the most negative [int], a negative exponent gives the
    reciprocal of the call on the negated exponent, which returns. *)
Lemma power_negative (base : float) (e : positive) (fuel : nat) :
  (Int.min_signed < Z.neg e)%Z ->
  Utils.isZero base Utils.default_epsilon = false ->
  (Spec.iterations e + 1 < fuel)%nat ->
  Utils.power fuel base (Int.neg (Z.neg e))
  = Some (Return (Spec.binexp PrimFloat.mul 1 base e)) /\
  Utils.power (S fuel) base (Z.neg e)
  = Some (Return (1 / Spec.binexp PrimFloat.mul 1 base e)).
Proof.
  intros Hmin Hz Hfuel.
  assert (Hneg : Int.neg (Z.neg e) = Z.pos e).
  { rewrite IntFacts.neg_small; [reflexivity|].
    revert Hmin. unfold Int.min_signed, Int.max_signed. lia. }
  rewrite power_negative_step, Hneg by assumption.
  rewrite power_positive by assumption. split; reflexivity.
Qed.

(** X16: every exponent above the most negative [int] makes [power] end,
    after at most as many loop iterations as the exponent has bits. *)
Lemma power_terminates (base : float) (exponent : Z) (fuel : nat) :
  (Int.min_signed < exponent <= Int.max_signed)%Z ->
  (Z.to_nat (Z.log2 (Z.abs exponent)) + 3 < fuel)%nat ->
  exists o, Utils.power fuel base exponent = Some o.
Proof.
  intros Hr Hfuel.
  destruct exponent as [|e|e].
  - destruct fuel as [|fuel]; [lia|]. eexists. reflexivity.
  - rewrite power_positive; [eauto|].
    pose proof (iterations_log2 e). simpl Z.abs in Hfuel. lia.
  - destruct fuel as [|fuel]; [lia|].
    destruct (Utils.isZero base Utils.default_epsilon) eqn:Hz.
    + rewrite power_negative_zero_base by assumption. eauto.
    + destruct (power_negative base e fuel) as [_ ->]; [lia|assumption| |eauto].
      pose proof (iterations_log2 e). simpl Z.abs in Hfuel. lia.
Qed.

(** X15: what [power] does on every exponent above the most negative [int]:
    1 for exponent 0; for a negative exponent [std::invalid_argument] when
    [|base| < 1e-9] and otherwise the reciprocal of [power base (- exponent)];
    for a positive exponent the value of binary exponentiation. *)
Lemma power_contract_above_int_min (base : float) (exponent : Z) (fuel : nat) :
  (Int.min_signed < exponent <= Int.max_signed)%Z -> (33 <= fuel)%nat ->
  (exponent = 0%Z -> Utils.power (S fuel) base exponent = Some (Return 1)) /\
  ((exponent < 0)%Z -> Utils.isZero base Utils.default_epsilon = true ->
     Utils.power (S fuel) base exponent =
       Some (Throw (invalid_argument "Cannot raise zero to negative power"))) /\
  ((exponent < 0)%Z -> Utils.isZero base Utils.default_epsilon = false ->
     exists r,
       Utils.power fuel base (Int.neg exponent) = Some (Return r) /\
       Utils.power (S fuel) base exponent = Some (Return (1 / r))) /\
  ((0 < exponent)%Z ->
     Utils.power (S fuel) base exponent =
       Some (Return (Spec.binexp PrimFloat.mul 1 base (Z.to_pos exponent)))).
Proof.
  intros Hr Hfuel. repeat split.
  - now intros ->.
  - destruct exponent as [|e|e]; try lia. intros _ Hz.
    now apply power_negative_zero_base.
  - destruct exponent as [|e|e]; try lia. intros _ Hz.
    exists (Spec.binexp PrimFloat.mul 1 base e).
    apply power_negative; [apply Hr|assumption|].
    assert (Spec.iterations e <= 31)%nat; [|lia].
    apply iterations_bound. revert Hr. unfold Int.min_signed, Int.max_signed. lia.
  - destruct exponent as [|e|e]; try lia. intros _.
    apply power_positive. simpl Z.to_pos.
    assert (Spec.iterations e <= 31)%nat; [|lia].
    apply iterations_bound. lia.
Qed.

Example power_2_10 : Utils.power 6 2 10 = Some (Return 1024).
Proof. reflexivity. Qed.

Example power_2_minus_1 : Utils.power 4 2 (-1) = Some (Return 0.5).
Proof. reflexivity. Qed.

Example power_0_minus_3 :
  Utils.power 1 0 (-3) =
    Some (Throw (invalid_argument "Cannot raise zero to negative power")).
Proof. reflexivity. Qed.

Example power_nan_0 : Utils.power 1 nan 0 = Some (Return 1).
Proof. reflexivity. Qed.

(** On the most negative [int] the negation wraps around to the same
    exponent, so a base that is not approximately zero sends [power] into
    the same call again, whatever the fuel. *)
Lemma power_int_min_out_of_fuel (base : float) :
  Utils.isZero base Utils.default_epsilon = false ->
  forall fuel, Utils.power fuel base Int.min_signed = None.
Proof.
  intros Hz. induction fuel as [|fuel IH]; [reflexivity|].
  change Int.min_signed with (Z.neg 2147483648) in *.
  rewrite power_negative_step by assumption.
  change (Int.neg (Z.neg 2147483648)) with (Z.neg 2147483648).
  now rewrite IH.
Qed.

(** C5 at the exponent [INT_MIN]: the exponent is negative and the base 2
    is not approximately zero, yet [power] returns no value at all, so it
    does not return the reciprocal of a positive power. *)
Theorem power_reciprocal_missing_at_int_min :
  (Int.min_signed < 0)%Z /\
  Utils.isZero 2 Utils.default_epsilon = false /\
  forall fuel r, Utils.power fuel 2 Int.min_signed <> Some (Return r).
Proof.
  repeat split. intros fuel r.
  now rewrite power_int_min_out_of_fuel.
Qed.

(** C6 at the exponent [INT_MIN]: [power 2 INT_MIN] is a call within the
    range of [int] that never ends, however much fuel it is given. *)
Theorem power_diverges_at_int_min :
  Int.in_range Int.min_signed /\
  forall fuel, Utils.power fuel 2 Int.min_signed = None.
Proof.
  split.
  - unfold Int.in_range, Int.min_signed, Int.max_signed. lia.
  - now apply power_int_min_out_of_fuel.
Qed.

(** * Rounding errors of binary64 arithmetic

    The operations of [SpecFloat] at precision 53 are analysed over the
    reals: a product, quotient or difference that stays in range is off by
    at most [u] times its magnitude plus [eta]. *)

Module Binary64.

Import IEEE.

Local Open Scope R_scope.

(** *** Powers of two *)

Lemma pow2_pos e : 0 < pow2 e.
Proof. apply powerRZ_lt. lra. Qed.

Lemma pow2_add a b : pow2 (a + b) = pow2 a * pow2 b.
Proof. apply powerRZ_add. lra. Qed.

Lemma pow2_0 : pow2 0 = 1.
Proof. reflexivity. Qed.

Lemma pow2_1 : pow2 1 = 2.
Proof. unfold pow2. simpl. lra. Qed.

Lemma pow2_m1 : pow2 (-1) = / 2.
Proof. unfold pow2. simpl. f_equal. lra. Qed.

Lemma pow2_succ e : pow2 (e + 1) = 2 * pow2 e.
Proof. rewrite pow2_add, pow2_1. lra. Qed.

Lemma pow2_pred e : pow2 (e - 1) = pow2 e / 2.
Proof.
  replace (e - 1)%Z with (e + (-1))%Z by lia.
  rewrite pow2_add, pow2_m1. lra.
Qed.

Lemma pow2_opp e : pow2 (- e) = / pow2 e.
Proof. apply powerRZ_neg'. Qed.

Lemma IZR_pow2 k : (0 <= k)%Z -> IZR (2 ^ k) = pow2 k.
Proof.
  intros Hk. pattern k. apply natlike_ind; [reflexivity| |assumption].
  intros x Hx IH. rewrite Z.pow_succ_r by assumption.
  rewrite mult_IZR, IH. unfold Z.succ. rewrite pow2_succ. reflexivity.
Qed.

Lemma pow2_le a b : (a <= b)%Z -> pow2 a <= pow2 b.
Proof.
  intros H. replace b with (a + (b - a))%Z by lia.
  rewrite pow2_add, <- (IZR_pow2 (b - a)) by lia.
  pose proof (pow2_pos a).
  assert (1 <= IZR (2 ^ (b - a))).
  { apply IZR_le. pose proof (Z.pow_pos_nonneg 2 (b - a)). lia. }
  nra.
Qed.

Lemma pow2_lt a b : (a < b)%Z -> pow2 a < pow2 b.
Proof.
  intros H. replace b with ((b - 1) + 1)%Z by lia.
  rewrite pow2_succ.
  pose proof (pow2_le a (b - 1) ltac:(lia)).
  pose proof (pow2_pos (b - 1)). lra.
Qed.

Lemma pow2_lt_inv a b : pow2 a < pow2 b -> (a < b)%Z.
Proof.
  intros H. destruct (Z_lt_le_dec a b) as [|Hle]; [assumption|].
  apply pow2_le in Hle. lra.
Qed.

(** *** Bit lengths *)

Lemma fexp_eq e : fexp prec emax e = Z.max (e - 53) (-1074).
Proof. reflexivity. Qed.

Lemma Zpow2_succ k : (0 <= k)%Z -> (2 ^ (k + 1) = 2 * 2 ^ k)%Z.
Proof. intros H. now rewrite Z.pow_add_r, Z.pow_1_r, Z.mul_comm by lia. Qed.

Lemma digits2_pos_bounds p :
  (2 ^ (Z.pos (digits2_pos p) - 1) <= Z.pos p < 2 ^ Z.pos (digits2_pos p))%Z.
Proof.
  induction p as [p IH|p IH|]; simpl digits2_pos;
    [rewrite Pos2Z.inj_succ, (Pos2Z.inj_xI p)
    |rewrite Pos2Z.inj_succ, (Pos2Z.inj_xO p)
    |simpl; lia];
    set (d := Z.pos (digits2_pos p)) in *;
    assert (Hd : (1 <= d)%Z) by (unfold d; lia);
    pose proof (Zpow2_succ (d - 1) ltac:(lia)) as H1;
    pose proof (Zpow2_succ d ltac:(lia)) as H2;
    replace (d - 1 + 1)%Z with d in H1 by lia;
    replace (Z.succ d - 1)%Z with d by lia;
    replace (Z.succ d) with (d + 1)%Z by lia; lia.
Qed.

Lemma Zdigits2_nonneg m : (0 <= Zdigits2 m)%Z.
Proof. destruct m; simpl; lia. Qed.

Lemma Zdigits2_le m k : (0 <= m < 2 ^ k)%Z -> (0 <= k)%Z -> (Zdigits2 m <= k)%Z.
Proof.
  intros [H0 Hm] Hk. destruct m as [|p|p]; simpl; [assumption| |lia].
  destruct (digits2_pos_bounds p) as [Hlo _].
  assert (H : (2 ^ (Z.pos (digits2_pos p) - 1) < 2 ^ k)%Z) by lia.
  apply Z.pow_lt_mono_r_iff in H; lia.
Qed.

Lemma Zdigits2_ge m k : (2 ^ k <= m)%Z -> (0 <= k)%Z -> (k + 1 <= Zdigits2 m)%Z.
Proof.
  intros Hm Hk. pose proof (Z.pow_pos_nonneg 2 k ltac:(lia) Hk).
  destruct m as [|p|p]; simpl; try lia.
  destruct (digits2_pos_bounds p) as [_ Hhi].
  assert (H' : (2 ^ k < 2 ^ Z.pos (digits2_pos p))%Z) by lia.
  apply Z.pow_lt_mono_r_iff in H'; lia.
Qed.

(** *** Shifting right keeps the location *)

Lemma IZR_xI p : IZR (Z.pos p~1) = 2 * IZR (Z.pos p) + 1.
Proof. now rewrite (Pos2Z.inj_xI p), plus_IZR, mult_IZR. Qed.

Lemma IZR_xO p : IZR (Z.pos p~0) = 2 * IZR (Z.pos p).
Proof. now rewrite (Pos2Z.inj_xO p), mult_IZR. Qed.

(** One shift halves the scaled value; the round bit becomes the bit
    shifted out and the sticky bit collects the rest. *)
Lemma shr_1_located mrs e v :
  located mrs e v -> located (shr_1 mrs) (e + 1) v.
Proof.
  unfold located. intros [H0 H].
  replace (- (e + 1))%Z with (- e - 1)%Z by lia.
  rewrite pow2_pred.
  set (t := v * pow2 (- e)) in *.
  replace (v * (pow2 (- e) / 2)) with (t / 2) by (unfold t; lra).
  clearbody t.
  destruct mrs as [m r s]. simpl in H0, H.
  destruct m as [|[p|p|]|p]; try lia; simpl shr_1; cbn [shr_m shr_r shr_s];
    try pose proof (IZR_xI p); try pose proof (IZR_xO p);
    (split; [lia|]); destruct r, s; simpl in *; lra.
Qed.

Lemma iter_pos_located : forall n mrs e v,
  located mrs e v -> located (SpecFloat.iter_pos shr_1 n mrs) (e + Z.pos n) v.
Proof.
  induction n as [n IH|n IH|]; intros mrs e v H; simpl SpecFloat.iter_pos.
  - replace (e + Z.pos n~1)%Z with (e + 1 + Z.pos n + Z.pos n)%Z by lia.
    apply IH, IH, shr_1_located, H.
  - replace (e + Z.pos n~0)%Z with (e + Z.pos n + Z.pos n)%Z by lia.
    apply IH, IH, H.
  - apply shr_1_located, H.
Qed.

Lemma shr_located mrs e n v :
  located mrs e v ->
  located (fst (shr mrs e n)) (snd (shr mrs e n)) v /\
  snd (shr mrs e n) = Z.max e (e + n).
Proof.
  intros H. destruct n as [|n|n]; simpl.
  - split; [assumption|lia].
  - split; [now apply iter_pos_located|lia].
  - split; [assumption|lia].
Qed.

(** Rounding to nearest even moves the mantissa by at most one half. *)
Lemma round_nearest_even_located mrs e v :
  located mrs e v ->
  let m1 := round_nearest_even (shr_m mrs) (loc_of_shr_record mrs) in
  (0 <= m1)%Z /\ Rabs (IZR m1 - v * pow2 (- e)) <= / 2.
Proof.
  unfold located. intros [H0 H].
  set (t := v * pow2 (- e)) in *. clearbody t.
  destruct mrs as [m [|] [|]]; simpl in *.
  - split; [lia|]. rewrite plus_IZR. apply Rabs_le. lra.
  - destruct (Z.even m); (split; [lia|]); try rewrite plus_IZR;
      apply Rabs_le; lra.
  - split; [lia|]. apply Rabs_le. lra.
  - split; [lia|]. apply Rabs_le. lra.
Qed.

Lemma shr_fexp_located mx ex lx v :
  located (shr_record_of_loc mx lx) ex v ->
  located (fst (shr_fexp prec emax mx ex lx)) (snd (shr_fexp prec emax mx ex lx)) v /\
  snd (shr_fexp prec emax mx ex lx) = Z.max ex (fexp prec emax (Zdigits2 mx + ex)).
Proof.
  intros H. unfold shr_fexp.
  destruct (shr_located _ _ (fexp prec emax (Zdigits2 mx + ex) - ex) _ H) as [H1 H2].
  split; [assumption|]. rewrite H2. lia.
Qed.

Lemma shr_m_record_of_loc m l : shr_m (shr_record_of_loc m l) = m.
Proof. now destruct l as [|[ | | ]]. Qed.

Lemma located_bounds mrs e v :
  located mrs e v ->
  IZR (shr_m mrs) * pow2 e <= v < (IZR (shr_m mrs) + 1) * pow2 e.
Proof.
  intros [H0 H].
  assert (Ht : IZR (shr_m mrs) <= v * pow2 (- e) < IZR (shr_m mrs) + 1).
  { destruct (shr_r mrs), (shr_s mrs); simpl in H; lra. }
  pose proof (pow2_pos e) as Hp.
  assert (Hv : v = v * pow2 (- e) * pow2 e).
  { rewrite Rmult_assoc, <- pow2_add. replace (- e + e)%Z with 0%Z by lia.
    rewrite pow2_0. lra. }
  set (t := v * pow2 (- e)) in *. clearbody t. subst v. split.
  - apply Rmult_le_compat_r; lra.
  - apply Rmult_lt_compat_r; lra.
Qed.

Lemma Zdigits2_lt m : (0 <= m)%Z -> (m < 2 ^ Zdigits2 m)%Z.
Proof.
  intros H. destruct m as [|p|p]; simpl; try lia.
  apply digits2_pos_bounds.
Qed.

Lemma Zdigits2_lower m : (0 < m)%Z -> (2 ^ (Zdigits2 m - 1) <= m)%Z.
Proof.
  intros H. destruct m as [|p|p]; simpl; try lia.
  apply digits2_pos_bounds.
Qed.

Lemma Rabs_le_inv a b : Rabs a <= b -> - b <= a <= b.
Proof. unfold Rabs. destruct (Rcase_abs a); lra. Qed.

(** *** The rounding step *)

Lemma binary_round_aux_finish sx mx ex lx :
  binary_round_aux prec emax sx mx ex lx =
  round_finish sx
    (round_nearest_even (shr_m (fst (shr_fexp prec emax mx ex lx)))
       (loc_of_shr_record (fst (shr_fexp prec emax mx ex lx))))
    (snd (shr_fexp prec emax mx ex lx)).
Proof.
  unfold binary_round_aux, round_finish.
  destruct (shr_fexp prec emax mx ex lx) as [mrs' e']. reflexivity.
Qed.

Lemma shr_nonpos mrs e n : (n <= 0)%Z -> shr mrs e n = (mrs, e).
Proof. destruct n; simpl; intros H; try reflexivity; lia. Qed.

(** A rounded mantissa of at most 53 bits, or exactly [2 ^ 53], is
    stored without loss when the exponent is in range. *)
Lemma round_finish_value sx m1 e' :
  (0 <= m1 <= 2 ^ 53)%Z -> (-1074 <= e')%Z -> (m1 = 0 \/ e' <= 900)%Z ->
  is_fin (round_finish sx m1 e') = true /\
  SF2R (round_finish sx m1 e') = sgn sx * (IZR m1 * pow2 e').
Proof.
  intros Hm He He'. unfold round_finish, shr_fexp.
  destruct (Z.eq_dec m1 (2 ^ 53)) as [->|Hne].
  - destruct He' as [He'|He']; [discriminate He'|].
    change (Zdigits2 (2 ^ 53)) with 54%Z.
    replace (fexp prec emax (54 + e') - e')%Z with 1%Z
      by (rewrite fexp_eq; lia).
    simpl shr. cbn [shr_m].
    replace (e' + 1 <=? emax - prec)%Z with true
      by (symmetry; apply Z.leb_le; unfold emax, prec; lia).
    split; [reflexivity|]. cbn [SF2R].
    rewrite pow2_succ.
    change (2 ^ 53)%Z with (2 * 4503599627370496)%Z. rewrite mult_IZR. lra.
  - assert (Hd : (Zdigits2 m1 <= 53)%Z) by (apply Zdigits2_le; lia).
    rewrite shr_nonpos by (rewrite fexp_eq; lia).
    simpl shr_m. destruct m1 as [|p|p]; [| |lia].
    + split; [reflexivity|]. simpl. lra.
    + destruct He' as [He'|He']; [discriminate He'|].
      replace (e' <=? emax - prec)%Z with true
        by (symmetry; apply Z.leb_le; unfold emax, prec; lia).
      split; reflexivity.
Qed.

Lemma half_pow2 e : / 2 * pow2 e = pow2 (e - 1).
Proof. rewrite pow2_pred. lra. Qed.

Lemma scale_abs m t e v :
  t = v * pow2 (- e) -> Rabs (IZR m - t) <= / 2 ->
  Rabs (IZR m * pow2 e - v) <= pow2 (e - 1).
Proof.
  intros Ht H. pose proof (pow2_pos e) as Hp.
  assert (Hv : v = t * pow2 e).
  { subst t. rewrite Rmult_assoc, <- pow2_add.
    replace (- e + e)%Z with 0%Z by lia. rewrite pow2_0. lra. }
  rewrite Hv, <- Rmult_minus_distr_r, Rabs_mult, (Rabs_pos_eq (pow2 e)) by lra.
  rewrite <- half_pow2. apply Rmult_le_compat_r; lra.
Qed.

(** The error of [binary_round_aux] on a real [v >= 0] located by
    [mx], [ex] and [lx], below the overflow threshold: at most [u * v] in
    the normal range and at most [eta] in the subnormal range. *)
Lemma binary_round_aux_error sx mx ex lx v :
  located (shr_record_of_loc mx lx) ex v ->
  lx = loc_Exact \/ (ex <= fexp prec emax (Zdigits2 mx + ex))%Z ->
  v < pow2 900 ->
  exists r,
    is_fin (binary_round_aux prec emax sx mx ex lx) = true /\
    SF2R (binary_round_aux prec emax sx mx ex lx) = sgn sx * r /\
    0 <= r /\ Rabs (r - v) <= u * v + eta.
Proof.
  intros Hloc Hcond Hv.
  rewrite binary_round_aux_finish.
  destruct (shr_fexp_located _ _ _ _ Hloc) as [Hloc' He'].
  set (mrs' := fst (shr_fexp prec emax mx ex lx)) in *.
  set (e' := snd (shr_fexp prec emax mx ex lx)) in *. clearbody e'.
  destruct (round_nearest_even_located _ _ _ Hloc') as [Hm1 Herr].
  set (m1 := round_nearest_even (shr_m mrs') (loc_of_shr_record mrs')) in *.
  set (d := Zdigits2 mx) in *.
  pose proof (located_bounds _ _ _ Hloc) as [Hlo Hhi].
  rewrite shr_m_record_of_loc in Hlo, Hhi.
  assert (Hmx : (0 <= mx)%Z).
  { destruct Hloc as [H _]. now rewrite shr_m_record_of_loc in H. }
  assert (Hd0 : (0 <= d)%Z) by apply Zdigits2_nonneg.
  pose proof (pow2_pos ex) as Hpex.
  assert (Hv0 : 0 <= v).
  { apply Rle_trans with (2 := Hlo). apply Rmult_le_pos; [now apply IZR_le|lra]. }
  (* v < 2^(d+ex) *)
  assert (Hvd : v < pow2 (d + ex)).
  { apply Rlt_le_trans with (1 := Hhi). rewrite pow2_add.
    apply Rmult_le_compat_r; [lra|].
    rewrite <- IZR_pow2 by assumption. rewrite <- plus_IZR. apply IZR_le.
    pose proof (Zdigits2_lt mx Hmx). unfold d. lia. }
  rewrite fexp_eq in He'. fold d in He'.
  assert (He'lo : (-1074 <= e')%Z) by lia.
  pose proof (pow2_pos e') as Hpe'.
  pose proof (pow2_pos (- e')) as Hpme'.
  set (t := v * pow2 (- e')) in *.
  (* t < 2^53 *)
  assert (Ht : t < pow2 53).
  { unfold t. apply Rlt_le_trans with (pow2 (d + ex) * pow2 (- e')).
    - apply Rmult_lt_compat_r; lra.
    - rewrite <- pow2_add. apply pow2_le. lia. }
  assert (Hm1hi : (m1 <= 2 ^ 53)%Z).
  { apply Rabs_le_inv in Herr. rewrite <- IZR_pow2 in Ht by lia.
    assert (H : IZR m1 < IZR (2 ^ 53 + 1)) by (rewrite plus_IZR; lra).
    apply lt_IZR in H. lia. }
  pose proof (scale_abs m1 t e' v eq_refl Herr) as Hscaled.
  (* no overflow *)
  assert (He'hi : (m1 = 0 \/ e' <= 900)%Z).
  { destruct (Z.eq_dec m1 0) as [Hz|Hnz]; [now left|right].
    assert (H1 : 1 <= IZR m1) by (apply IZR_le; lia).
    assert (H2 : pow2 e' <= IZR m1 * pow2 e') by nra.
    apply Rabs_le_inv in Hscaled. rewrite pow2_pred in Hscaled.
    assert (H3 : pow2 e' < pow2 901).
    { replace 901%Z with (900 + 1)%Z by lia. rewrite pow2_succ. lra. }
    apply pow2_lt_inv in H3. lia. }
  destruct (round_finish_value sx m1 e' (conj Hm1 Hm1hi) He'lo He'hi)
    as [Hfin Hval].
  exists (IZR m1 * pow2 e'). split; [assumption|]. split; [assumption|].
  split; [apply Rmult_le_pos; [now apply IZR_le|lra]|].
  (* the error bound *)
  pose proof (pow2_pos (-53)) as Hpu. fold u in Hpu.
  pose proof (pow2_pos (-1075)) as Hpeta. fold eta in Hpeta.
  assert (Huv : 0 <= u * v) by (apply Rmult_le_pos; lra).
  destruct (Z_le_gt_dec ex (Z.max (d + ex - 53) (-1074))) as [Hshift|Hnoshift].
  - assert (Ee : e' = Z.max (d + ex - 53) (-1074)) by lia.
    rewrite Ee in Hscaled |- *.
    destruct (Z_le_gt_dec (d + ex - 53) (-1074)) as [Hsub|Hnorm].
    + rewrite Z.max_r in Hscaled |- * by assumption.
      change (pow2 (-1074 - 1)) with eta in Hscaled. lra.
    + rewrite Z.max_l in Hscaled |- * by lia.
      assert (Hmxpos : (0 < mx)%Z).
      { destruct (Z.eq_dec mx 0) as [Hz|]; [|lia].
        unfold d in Hshift, Hnorm. rewrite Hz in Hshift, Hnorm.
        simpl Zdigits2 in Hshift, Hnorm. lia. }
      pose proof (Zdigits2_lower mx Hmxpos) as Hl. fold d in Hl.
      assert (Hvlo : pow2 (d - 1 + ex) <= v).
      { apply Rle_trans with (2 := Hlo). rewrite pow2_add.
        apply Rmult_le_compat_r; [lra|].
        rewrite <- IZR_pow2 by lia. now apply IZR_le. }
      replace (d + ex - 53 - 1)%Z with (-53 + (d - 1 + ex))%Z in Hscaled by lia.
      rewrite pow2_add in Hscaled. fold u in Hscaled.
      apply Rle_trans with (1 := Hscaled).
      assert (u * pow2 (d - 1 + ex) <= u * v)
        by (apply Rmult_le_compat_l; lra).
      lra.
  - (* no shift and an exact location: nothing is rounded *)
    destruct Hcond as [->|Hc]; [|rewrite fexp_eq in Hc; fold d in Hc; lia].
    assert (He'ex : e' = ex) by lia.
    assert (Hm1mx : m1 = mx).
    { unfold m1, mrs', shr_fexp. rewrite shr_nonpos by (rewrite fexp_eq; fold d; lia).
      reflexivity. }
    destruct Hloc as [_ Hin]. simpl in Hin.
    assert (Hveq : v = IZR mx * pow2 ex).
    { rewrite <- Hin, Rmult_assoc, <- pow2_add.
      replace (- ex + ex)%Z with 0%Z by lia. rewrite pow2_0. lra. }
    rewrite Hm1mx, He'ex, <- Hveq.
    replace (v - v) with 0 by lra. rewrite Rabs_R0. lra.
Qed.

(** *** Multiplication *)

Lemma pow2_cancel e : pow2 e * pow2 (- e) = 1.
Proof. rewrite <- pow2_add. replace (e + - e)%Z with 0%Z by lia. apply pow2_0. Qed.

Lemma located_exact m e :
  (0 <= m)%Z -> located (shr_record_of_loc m loc_Exact) e (IZR m * pow2 e).
Proof.
  intros H. split; [assumption|]. simpl.
  rewrite Rmult_assoc, pow2_cancel. lra.
Qed.

Lemma sgn_xorb s s' : sgn (xorb s s') = sgn s * sgn s'.
Proof. destruct s, s'; unfold sgn; simpl; lra. Qed.

Lemma Rabs_sgn s r : Rabs (sgn s * r) = Rabs r.
Proof.
  destruct s; unfold sgn.
  - replace (-1 * r) with (- r) by lra. apply Rabs_Ropp.
  - now rewrite Rmult_1_l.
Qed.

Lemma u_pos : 0 < u.
Proof. apply pow2_pos. Qed.

Lemma eta_pos : 0 < eta.
Proof. apply pow2_pos. Qed.

Lemma zero_error : Rabs (0 - 0) <= u * Rabs 0 + eta.
Proof.
  replace (0 - 0) with 0 by lra. rewrite Rabs_R0.
  pose proof eta_pos. lra.
Qed.

(** Rounding a nonnegative real [v] with sign [s]. *)
Lemma signed_round_error s s' z r v w :
  SF2R z = sgn s * r -> w = sgn s' * v -> sgn s = sgn s' -> 0 <= v ->
  Rabs (r - v) <= u * v + eta ->
  Rabs (SF2R z - w) <= u * Rabs w + eta.
Proof.
  intros -> -> Hs Hv H. rewrite <- Hs.
  rewrite <- Rmult_minus_distr_l, !Rabs_sgn, (Rabs_pos_eq v) by assumption.
  assumption.
Qed.

Lemma SFmul_error x y :
  is_fin x = true -> is_fin y = true -> Rabs (SF2R x * SF2R y) < pow2 900 ->
  is_fin (SFmul prec emax x y) = true /\
  Rabs (SF2R (SFmul prec emax x y) - SF2R x * SF2R y) <= u * Rabs (SF2R x * SF2R y) + eta.
Proof.
  destruct x as [sx|sx| |sx mx ex], y as [sy|sy| |sy my ey];
    try discriminate; intros _ _ Hv; simpl SFmul;
    try (split; [reflexivity|]; cbn [SF2R];
         rewrite ?Rmult_0_l, ?Rmult_0_r; apply zero_error).
  set (v := IZR (Z.pos (mx * my)) * pow2 (ex + ey)).
  assert (Hprod : SF2R (S754_finite sx mx ex) * SF2R (S754_finite sy my ey)
                  = sgn (xorb sx sy) * v).
  { cbn [SF2R]. unfold v. rewrite sgn_xorb, Pos2Z.inj_mul, mult_IZR, pow2_add. ring. }
  assert (Hv0 : 0 <= v).
  { unfold v. apply Rmult_le_pos; [apply IZR_le; lia|].
    pose proof (pow2_pos (ex + ey)). lra. }
  rewrite Hprod in *. rewrite Rabs_sgn, Rabs_pos_eq in Hv by assumption.
  destruct (binary_round_aux_error (xorb sx sy) (Z.pos (mx * my)) (ex + ey)
              loc_Exact v) as (r & Hfin & HB & Hr & Herr).
  - apply located_exact. lia.
  - now left.
  - assumption.
  - split; [assumption|].
    now apply (signed_round_error (xorb sx sy) (xorb sx sy) _ r v).
Qed.

(** *** Division *)

(** [new_location] places the remainder [k] of a division by [nb]. *)
Lemma new_location_inb nb k q :
  (0 < nb)%Z -> (0 <= k < nb)%Z ->
  let mrs := shr_record_of_loc q (new_location nb k) in
  inb q (shr_r mrs) (shr_s mrs) (IZR q + IZR k / IZR nb).
Proof.
  intros Hnb Hk.
  assert (Hn : 0 < IZR nb) by now apply IZR_lt.
  set (f := IZR k / IZR nb).
  assert (Hf : f * IZR nb = IZR k) by (unfold f; field; lra).
  assert (Hk0 : (k = 0)%Z -> f = 0).
  { intros ->. unfold f. lra. }
  assert (Hlt : (2 * k < nb)%Z -> f < / 2).
  { intros H. apply IZR_lt in H. rewrite mult_IZR in H. nra. }
  assert (Hgt : (nb < 2 * k)%Z -> / 2 < f).
  { intros H. apply IZR_lt in H. rewrite mult_IZR in H. nra. }
  assert (Heq : (2 * k = nb)%Z -> f = / 2).
  { intros H. apply (f_equal IZR) in H. rewrite mult_IZR in H. nra. }
  assert (Hpos : (0 < k)%Z -> 0 < f).
  { intros H. apply IZR_lt in H. nra. }
  assert (H1 : f < 1).
  { destruct Hk as [_ H]. apply IZR_lt in H. nra. }
  clearbody f.
  unfold new_location, new_location_even, new_location_odd.
  destruct (Z.even nb) eqn:Hev; destruct (Z.eqb_spec k 0) as [Hz|Hnz];
    try (simpl; rewrite (Hk0 Hz); lra).
  - destruct (Z.compare_spec (2 * k) nb) as [H|H|H]; simpl.
    + rewrite (Heq H). lra.
    + pose proof (Hlt H). pose proof (Hpos ltac:(lia)). lra.
    + pose proof (Hgt H). lra.
  - assert (Hodd : (2 * k <> nb)%Z).
    { intros H. rewrite <- H, Z.even_mul in Hev. discriminate Hev. }
    destruct (Z.compare_spec (2 * k + 1) nb) as [H|H|H]; simpl.
    + pose proof (Hlt ltac:(lia)). pose proof (Hpos ltac:(lia)). lra.
    + pose proof (Hlt ltac:(lia)). pose proof (Hpos ltac:(lia)). lra.
    + pose proof (Hgt ltac:(lia)). lra.
Qed.

Lemma fexp_mono a b : (a <= b)%Z -> (fexp prec emax a <= fexp prec emax b)%Z.
Proof. rewrite !fexp_eq. lia. Qed.

(** The quotient, exponent and location computed by
    [SFdiv_core_binary] locate the real quotient, at an exponent that
    leaves at least 53 bits to round. *)
Lemma SFdiv_core_binary_located mx ex my ey :
  let '(q, e', l) := SFdiv_core_binary prec emax (Z.pos mx) ex (Z.pos my) ey in
  located (shr_record_of_loc q l) e'
    (IZR (Z.pos mx) * pow2 ex / (IZR (Z.pos my) * pow2 ey)) /\
  (e' <= fexp prec emax (Zdigits2 q + e'))%Z.
Proof.
  unfold SFdiv_core_binary.
  set (d1 := Zdigits2 (Z.pos mx)). set (d2 := Zdigits2 (Z.pos my)).
  set (e' := Z.min (fexp prec emax (d1 + ex - (d2 + ey))) (ex - ey)).
  set (s := (ex - ey - e')%Z).
  assert (Hs : (0 <= s)%Z) by (unfold s, e'; lia).
  set (m' := match s with
             | 0%Z => Z.pos mx
             | Z.pos _ => Z.shiftl (Z.pos mx) s
             | Z.neg _ => 0%Z
             end).
  assert (Hm' : m' = (Z.pos mx * 2 ^ s)%Z).
  { unfold m'. destruct s as [|p|p]; [lia| |lia].
    now rewrite Z.shiftl_mul_pow2 by lia. }
  clearbody m'.
  pose proof (Z_div_mod m' (Z.pos my) ltac:(lia)) as Hdiv.
  destruct (Z.div_eucl m' (Z.pos my)) as [q r]. destruct Hdiv as [Hqr Hr].
  assert (H2s : (0 < 2 ^ s)%Z) by (apply Z.pow_pos_nonneg; lia).
  assert (Hq : (0 <= q)%Z) by nia.
  assert (Hmy : 0 < IZR (Z.pos my)) by (apply IZR_lt; lia).
  pose proof (pow2_pos ex). pose proof (pow2_pos ey). pose proof (pow2_pos e').
  split.
  - split; [now rewrite shr_m_record_of_loc|]. rewrite shr_m_record_of_loc.
    replace (IZR (Z.pos mx) * pow2 ex / (IZR (Z.pos my) * pow2 ey) * pow2 (- e'))
      with (IZR q + IZR r / IZR (Z.pos my)).
    + apply new_location_inb; lia.
    + assert (Hm'R : IZR m' = IZR (Z.pos mx) * pow2 s).
      { rewrite Hm', mult_IZR, IZR_pow2 by assumption. reflexivity. }
      assert (HqrR : IZR m' = IZR (Z.pos my) * IZR q + IZR r).
      { rewrite Hqr, plus_IZR, mult_IZR. reflexivity. }
      assert (Hps : pow2 s = pow2 ex * / pow2 ey * pow2 (- e')).
      { unfold s. replace (ex - ey - e')%Z with (ex + (- ey) + (- e'))%Z by lia.
        rewrite !pow2_add, (pow2_opp ey). reflexivity. }
      rewrite Hps in Hm'R.
      replace (IZR q + IZR r / IZR (Z.pos my))
        with (IZR m' / IZR (Z.pos my)) by (rewrite HqrR; field; lra).
      rewrite Hm'R. field. split; lra.
  - apply Z.le_trans with (fexp prec emax (d1 + ex - (d2 + ey))); [unfold e'; lia|].
    apply fexp_mono.
    destruct (Z_le_gt_dec (d1 - d2 + s) 0) as [Hle|Hgt].
    + pose proof (Zdigits2_nonneg q). unfold s in Hle. lia.
    + assert (Hk : (d1 - d2 + s - 1 + 1 <= Zdigits2 q)%Z); [|unfold s in *; lia].
      apply Zdigits2_ge; [|lia].
      pose proof (Zdigits2_lower (Z.pos mx) ltac:(lia)) as Hl1. fold d1 in Hl1.
      pose proof (Zdigits2_lt (Z.pos my) ltac:(lia)) as Hl2. fold d2 in Hl2.
      assert (Hd1 : (1 <= d1)%Z) by (unfold d1; simpl; lia).
      assert (Hd2 : (1 <= d2)%Z) by (unfold d2; simpl; lia).
      set (k := (d1 - d2 + s - 1)%Z) in *.
      assert (Hpk : (2 ^ k * 2 ^ d2 = 2 ^ (d1 - 1) * 2 ^ s)%Z).
      { rewrite <- !Z.pow_add_r by lia. f_equal. unfold k. lia. }
      assert (H2k : (0 < 2 ^ k)%Z) by (apply Z.pow_pos_nonneg; lia).
      assert (Hle : (Z.pos my * 2 ^ k <= m')%Z).
      { rewrite Hm'. nia. }
      assert (Hdivq : q = (m' / Z.pos my)%Z).
      { apply Z.div_unique_pos with r; [lia|assumption]. }
      rewrite Hdivq. apply Z.div_le_lower_bound; lia.
Qed.

Lemma SFdiv_error x sy my ey :
  is_fin x = true ->
  Rabs (SF2R x / SF2R (S754_finite sy my ey)) < pow2 900 ->
  is_fin (SFdiv prec emax x (S754_finite sy my ey)) = true /\
  Rabs (SF2R (SFdiv prec emax x (S754_finite sy my ey))
        - SF2R x / SF2R (S754_finite sy my ey))
  <= u * Rabs (SF2R x / SF2R (S754_finite sy my ey)) + eta.
Proof.
  destruct x as [sx|sx| |sx mx ex]; try discriminate; intros _ Hv; simpl SFdiv.
  - split; [reflexivity|]. cbn [SF2R]. unfold Rdiv. rewrite Rmult_0_l.
    apply zero_error.
  - pose proof (SFdiv_core_binary_located mx ex my ey) as Hcore.
    destruct (SFdiv_core_binary prec emax (Z.pos mx) ex (Z.pos my) ey)
      as [[q e'] l].
    destruct Hcore as [Hloc Hcond].
    set (v := IZR (Z.pos mx) * pow2 ex / (IZR (Z.pos my) * pow2 ey)) in *.
    assert (Hmx : 0 < IZR (Z.pos mx)) by (apply IZR_lt; lia).
    assert (Hmy : 0 < IZR (Z.pos my)) by (apply IZR_lt; lia).
    pose proof (pow2_pos ex). pose proof (pow2_pos ey).
    assert (Hquot : SF2R (S754_finite sx mx ex) / SF2R (S754_finite sy my ey)
                    = sgn (xorb sx sy) * v).
    { cbn [SF2R]. unfold v. rewrite sgn_xorb.
      destruct sx, sy; unfold sgn; field; lra. }
    assert (Hv0 : 0 <= v).
    { unfold v. apply Rlt_le, Rdiv_lt_0_compat; apply Rmult_lt_0_compat; lra. }
    rewrite Hquot in *. rewrite Rabs_sgn, Rabs_pos_eq in Hv by assumption.
    destruct (binary_round_aux_error (xorb sx sy) q e' l v)
      as (r & Hfin & HB & Hr & Herr); [assumption|now right|assumption|].
    split; [assumption|].
    now apply (signed_round_error (xorb sx sy) (xorb sx sy) _ r v).
Qed.

(** *** Subtraction *)

Lemma Pos_iter_xO m d : Z.pos (Pos.iter xO m d) = (Z.pos m * 2 ^ Z.pos d)%Z.
Proof.
  induction d as [|d IH] using Pos.peano_ind.
  - simpl. lia.
  - rewrite Pos.iter_succ, Pos2Z.inj_xO, IH, Pos2Z.inj_succ.
    rewrite Z.pow_succ_r by lia. ring.
Qed.

Lemma shl_align_value m e e' :
  IZR (Z.pos (fst (shl_align m e e'))) * pow2 (snd (shl_align m e e'))
  = IZR (Z.pos m) * pow2 e.
Proof.
  unfold shl_align. destruct (e' - e)%Z as [|d|d] eqn:Hd; try reflexivity.
  cbn [fst snd]. rewrite Pos_iter_xO, mult_IZR, IZR_pow2 by lia.
  rewrite Rmult_assoc, <- pow2_add. do 2 f_equal. lia.
Qed.

Lemma shl_align_snd m e e' : (e' <= e)%Z -> snd (shl_align m e e') = e'.
Proof.
  intros H. unfold shl_align. destruct (e' - e)%Z as [|d|d] eqn:Hd; simpl; lia.
Qed.

Lemma binary_round_error s m e :
  IZR (Z.pos m) * pow2 e < pow2 900 ->
  exists r,
    is_fin (binary_round prec emax s m e) = true /\
    SF2R (binary_round prec emax s m e) = sgn s * r /\
    0 <= r /\
    Rabs (r - IZR (Z.pos m) * pow2 e) <= u * (IZR (Z.pos m) * pow2 e) + eta.
Proof.
  intros Hv. unfold binary_round.
  pose proof (shl_align_value m e (fexp prec emax (Z.pos (digits2_pos m) + e)))
    as Hval.
  destruct (shl_align m e (fexp prec emax (Z.pos (digits2_pos m) + e)))
    as [mz ez]. cbn [fst snd] in Hval. rewrite <- Hval in *.
  apply binary_round_aux_error; [apply located_exact; lia|now left|assumption].
Qed.

Lemma binary_normalize_error m e :
  Rabs (IZR m * pow2 e) < pow2 900 ->
  is_fin (binary_normalize prec emax m e false) = true /\
  Rabs (SF2R (binary_normalize prec emax m e false) - IZR m * pow2 e)
  <= u * Rabs (IZR m * pow2 e) + eta.
Proof.
  intros Hv. pose proof (pow2_pos e) as Hp.
  destruct m as [|p|p]; simpl binary_normalize.
  - split; [reflexivity|]. cbn [SF2R]. rewrite Rmult_0_l. apply zero_error.
  - assert (Hv0 : 0 <= IZR (Z.pos p) * pow2 e).
    { apply Rmult_le_pos; [apply IZR_le; lia|lra]. }
    rewrite Rabs_pos_eq in Hv by assumption.
    destruct (binary_round_error false p e Hv) as (r & Hfin & HB & Hr & Herr).
    split; [assumption|].
    apply (signed_round_error false false _ r (IZR (Z.pos p) * pow2 e));
      try assumption; try reflexivity. unfold sgn. lra.
  - assert (Hv0 : 0 <= IZR (Z.pos p) * pow2 e).
    { apply Rmult_le_pos; [apply IZR_le; lia|lra]. }
    assert (Hneg : IZR (Z.neg p) * pow2 e = sgn true * (IZR (Z.pos p) * pow2 e)).
    { change (Z.neg p) with (- Z.pos p)%Z. rewrite opp_IZR. unfold sgn. lra. }
    rewrite Hneg in *. rewrite Rabs_sgn, Rabs_pos_eq in Hv by assumption.
    destruct (binary_round_error true p e Hv) as (r & Hfin & HB & Hr & Herr).
    split; [assumption|].
    now apply (signed_round_error true true _ r (IZR (Z.pos p) * pow2 e)).
Qed.

Lemma IZR_cond_Zopp s z : IZR (cond_Zopp s z) = sgn s * IZR z.
Proof. destruct s; unfold sgn; simpl; [rewrite opp_IZR|]; lra. Qed.

Lemma exact_error w : Rabs (w - w) <= u * Rabs w + eta.
Proof.
  replace (w - w) with 0 by lra. rewrite Rabs_R0.
  pose proof (Rabs_pos w). pose proof u_pos. pose proof eta_pos. nra.
Qed.

Lemma SFsub_error x y :
  is_fin x = true -> is_fin y = true -> Rabs (SF2R x - SF2R y) < pow2 900 ->
  is_fin (SFsub prec emax x y) = true /\
  Rabs (SF2R (SFsub prec emax x y) - (SF2R x - SF2R y)) <= u * Rabs (SF2R x - SF2R y) + eta.
Proof.
  destruct x as [sx|sx| |sx mx ex], y as [sy|sy| |sy my ey];
    try discriminate; intros _ _ Hv.
  - split; [now destruct sx, sy|].
    replace (SF2R (SFsub prec emax (S754_zero sx) (S754_zero sy))) with 0
      by now destruct sx, sy.
    cbn [SF2R]. replace (0 - 0) with 0 by lra. apply zero_error.
  - split; [reflexivity|]. simpl SFsub.
    replace (SF2R (S754_finite (negb sy) my ey))
      with (SF2R (S754_zero sx) - SF2R (S754_finite sy my ey))
      by (cbn [SF2R]; destruct sy; unfold sgn; simpl; lra).
    apply exact_error.
  - split; [reflexivity|]. simpl SFsub.
    replace (SF2R (S754_finite sx mx ex))
      with (SF2R (S754_finite sx mx ex) - SF2R (S754_zero sy)) at 1
      by (cbn [SF2R]; lra).
    apply exact_error.
  - simpl SFsub. set (ez := Z.min ex ey).
    set (M := (cond_Zopp sx (Z.pos (fst (shl_align mx ex ez)))
               - cond_Zopp sy (Z.pos (fst (shl_align my ey ez))))%Z).
    assert (HM : IZR M * pow2 ez
                 = SF2R (S754_finite sx mx ex) - SF2R (S754_finite sy my ey)).
    { unfold M. rewrite minus_IZR, !IZR_cond_Zopp. cbn [SF2R].
      rewrite <- (shl_align_value mx ex ez), <- (shl_align_value my ey ez).
      rewrite !shl_align_snd by (unfold ez; lia). ring. }
    rewrite <- HM in *. now apply binary_normalize_error.
Qed.

(** *** Comparisons of valid numbers *)

Lemma bounded_digits m e :
  SpecFloat.bounded prec emax m e = true ->
  (Z.pos (digits2_pos m) <= 53 /\ -1074 <= e /\
   (-1074 < e -> Z.pos (digits2_pos m) = 53))%Z.
Proof.
  unfold SpecFloat.bounded, canonical_mantissa. rewrite fexp_eq.
  intros H. apply andb_true_iff in H as [H _]. apply Z.eqb_eq in H. lia.
Qed.

Lemma finite_lt_exp m1 e1 m2 e2 :
  SpecFloat.bounded prec emax m1 e1 = true -> SpecFloat.bounded prec emax m2 e2 = true ->
  (e1 < e2)%Z ->
  IZR (Z.pos m1) * pow2 e1 < IZR (Z.pos m2) * pow2 e2.
Proof.
  intros H1 H2 He.
  apply bounded_digits in H1 as (Hd1 & He1 & _).
  apply bounded_digits in H2 as (_ & _ & Hd2). specialize (Hd2 ltac:(lia)).
  destruct (digits2_pos_bounds m1) as [_ Hm1].
  destruct (digits2_pos_bounds m2) as [Hm2 _]. rewrite Hd2 in Hm2.
  assert (Hm1' : (Z.pos m1 < 2 ^ 53)%Z).
  { apply Z.lt_le_trans with (1 := Hm1). apply Z.pow_le_mono_r; lia. }
  apply IZR_lt in Hm1'. apply IZR_le in Hm2.
  rewrite IZR_pow2 in Hm1', Hm2 by lia.
  pose proof (pow2_pos e1). pose proof (pow2_pos e2).
  apply Rlt_le_trans with (pow2 53 * pow2 e1).
  - apply Rmult_lt_compat_r; assumption.
  - apply Rle_trans with (pow2 (53 - 1) * pow2 e2).
    + rewrite <- !pow2_add. apply pow2_le. lia.
    + apply Rmult_le_compat_r; lra.
Qed.

Lemma SF2R_SFabs x : SF2R (SFabs x) = Rabs (SF2R x).
Proof.
  destruct x as [s|s| |s m e]; cbn [SFabs SF2R]; try (now rewrite Rabs_R0).
  rewrite Rabs_sgn, Rabs_pos_eq; [unfold sgn; lra|].
  apply Rmult_le_pos; [apply IZR_le; lia|]. pose proof (pow2_pos e). lra.
Qed.

Lemma mantissa_pos m e : 0 < IZR (Z.pos m) * pow2 e.
Proof.
  apply Rmult_lt_0_compat; [apply IZR_lt; lia|apply pow2_pos].
Qed.

Lemma SFltb_abs x m2 e2 :
  valid_binary x = true -> SpecFloat.bounded prec emax m2 e2 = true ->
  is_fin x = true -> Rabs (SF2R x) < IZR (Z.pos m2) * pow2 e2 ->
  SFltb (SFabs x) (S754_finite false m2 e2) = true.
Proof.
  intros Hx H2 Hfin Hlt. rewrite <- SF2R_SFabs in Hlt.
  destruct x as [s|s| |s m1 e1]; try discriminate; [reflexivity|].
  cbn [SFabs SF2R] in *. unfold SFltb, SFcompare. simpl in Hx.
  replace (sgn false * (IZR (Z.pos m1) * pow2 e1))
    with (IZR (Z.pos m1) * pow2 e1) in Hlt by (unfold sgn; lra).
  destruct (Z.compare_spec e1 e2) as [He|He|He]; [|reflexivity|].
  - subst e2. change (Pos.compare_cont Eq m1 m2) with (m1 ?= m2)%positive.
    destruct (Pos.compare_spec m1 m2) as [Hm|Hm|Hm]; [|reflexivity|];
      exfalso; pose proof (pow2_pos e1).
    + subst. lra.
    + assert (IZR (Z.pos m2) < IZR (Z.pos m1)) by (apply IZR_lt; lia). nra.
  - pose proof (finite_lt_exp m2 e2 m1 e1 H2 Hx He). lra.
Qed.

Lemma SFleb_abs_bound x m2 e2 :
  valid_binary x = true -> SpecFloat.bounded prec emax m2 e2 = true ->
  SFleb (SFabs x) (S754_finite false m2 e2) = true ->
  is_fin x = true /\ Rabs (SF2R x) <= IZR (Z.pos m2) * pow2 e2.
Proof.
  intros Hx H2 Hle. rewrite <- SF2R_SFabs.
  pose proof (mantissa_pos m2 e2) as Hpos.
  destruct x as [s|s| |s m1 e1]; try discriminate.
  - split; [reflexivity|]. cbn [SFabs SF2R]. lra.
  - split; [reflexivity|]. cbn [SFabs SF2R] in *. simpl in Hx.
    replace (sgn false * (IZR (Z.pos m1) * pow2 e1))
      with (IZR (Z.pos m1) * pow2 e1) by (unfold sgn; lra).
    unfold SFleb, SFcompare in Hle.
    destruct (Z.compare_spec e1 e2) as [He|He|He]; [| |discriminate].
    + subst e2. change (Pos.compare_cont Eq m1 m2) with (m1 ?= m2)%positive in Hle.
      pose proof (pow2_pos e1).
      destruct (Pos.compare_spec m1 m2) as [Hm|Hm|Hm]; [| |discriminate].
      * subst. lra.
      * assert (IZR (Z.pos m1) < IZR (Z.pos m2)) by (apply IZR_lt; lia). nra.
    + pose proof (finite_lt_exp m1 e1 m2 e2 Hx H2 He). lra.
Qed.

(** *** The round trip over the reals *)

Lemma err_step y t T :
  Rabs (y - t) <= u * Rabs t + eta -> Rabs t <= T ->
  - (u * T + eta) <= y - t <= u * T + eta.
Proof.
  intros H Ht. apply Rabs_le_inv. apply Rle_trans with (1 := H).
  pose proof u_pos. nra.
Qed.

Lemma u_value : u = / 9007199254740992.
Proof.
  unfold u. change (-53)%Z with (- (53))%Z. rewrite pow2_opp, <- IZR_pow2 by lia.
  reflexivity.
Qed.

Lemma eta_small : eta <= / 1267650600228229401496703205376.
Proof.
  apply Rle_trans with (pow2 (- (100))).
  - apply pow2_le. lia.
  - rewrite pow2_opp, <- IZR_pow2 by lia. apply Rle_refl.
Qed.

Lemma pow2_900_large : 1000000000 < pow2 900.
Proof.
  apply Rlt_le_trans with (pow2 30).
  - rewrite <- IZR_pow2 by lia. apply IZR_lt. reflexivity.
  - apply pow2_le. lia.
Qed.

Lemma SF2R_PI : SF2R SF_PI = 7074237752028440 / 2251799813685248.
Proof.
  unfold SF_PI. cbn [SF2R]. change (-51)%Z with (- (51))%Z.
  rewrite pow2_opp, <- IZR_pow2 by lia.
  change (2 ^ 51)%Z with 2251799813685248%Z. unfold sgn. lra.
Qed.

Lemma SF2R_180 : SF2R SF_180 = 180.
Proof.
  unfold SF_180. cbn [SF2R]. change (-45)%Z with (- (45))%Z.
  rewrite pow2_opp, <- IZR_pow2 by lia.
  change (2 ^ 45)%Z with 35184372088832%Z. unfold sgn. lra.
Qed.

Lemma value_2_21 : IZR 4503599627370496 * pow2 (-31) = 2097152.
Proof.
  change (-31)%Z with (- (31))%Z.
  rewrite pow2_opp, <- IZR_pow2 by lia.
  change (2 ^ 31)%Z with 2147483648%Z. lra.
Qed.

Lemma value_epsilon :
  IZR 4835703278458517 * pow2 (-82)
  = 4835703278458517 / 4835703278458516698824704.
Proof.
  change (-82)%Z with (- (82))%Z.
  rewrite pow2_opp, <- IZR_pow2 by lia.
  change (2 ^ 82)%Z with 4835703278458516698824704%Z. lra.
Qed.

Section RoundTrip.

Variable X : spec_float.
Hypothesis Xfin : is_fin X = true.
Hypothesis Xbound : Rabs (SF2R X) <= 2097152.

Let Y1 := SFmul prec emax X SF_PI.
Let Y2 := SFdiv prec emax Y1 SF_180.
Let Y3 := SFmul prec emax Y2 SF_180.
Let Y4 := SFdiv prec emax Y3 SF_PI.
Let D := SFsub prec emax Y4 X.

(** The difference between the round trip of [X] and [X], as the
    program computes it, is a finite number below the value of 1e-9. *)
Lemma round_trip_SF :
  is_fin D = true /\
  Rabs (SF2R D) < 4835703278458517 / 4835703278458516698824704.
Proof.
  pose proof u_value as Hu. pose proof eta_small as Heta.
  pose proof eta_pos as Heta0. pose proof pow2_900_large as Hbig.
  pose proof SF2R_PI as HP. pose proof SF2R_180 as H180.
  apply Rabs_le_inv in Xbound.
  (* x * pi *)
  assert (T1 : Rabs (SF2R X * SF2R SF_PI) <= 6588398).
  { rewrite HP. apply Rabs_le. lra. }
  destruct (SFmul_error X SF_PI Xfin eq_refl ltac:(lra)) as [F1 E1].
  fold Y1 in F1, E1. apply err_step with (T := 6588398) in E1; [|assumption].
  rewrite HP, Hu in E1.
  (* / 180 *)
  assert (T2 : Rabs (SF2R Y1 / SF2R SF_180) <= 36603).
  { rewrite H180. apply Rabs_le. lra. }
  destruct (SFdiv_error Y1 false 6333186975989760 (-45) F1 ltac:(fold SF_180; lra))
    as [F2 E2].
  fold SF_180 in F2, E2. fold Y2 in F2, E2.
  apply err_step with (T := 36603) in E2; [|assumption].
  rewrite H180, Hu in E2.
  (* * 180 *)
  assert (T3 : Rabs (SF2R Y2 * SF2R SF_180) <= 6588720).
  { rewrite H180. apply Rabs_le. lra. }
  destruct (SFmul_error Y2 SF_180 F2 eq_refl ltac:(lra)) as [F3 E3].
  fold Y3 in F3, E3. apply err_step with (T := 6588720) in E3; [|assumption].
  rewrite H180, Hu in E3.
  (* / pi *)
  assert (T4 : Rabs (SF2R Y3 / SF2R SF_PI) <= 2097300).
  { rewrite HP. apply Rabs_le. lra. }
  destruct (SFdiv_error Y3 false 7074237752028440 (-51) F3 ltac:(fold SF_PI; lra))
    as [F4 E4].
  fold SF_PI in F4, E4. fold Y4 in F4, E4.
  apply err_step with (T := 2097300) in E4; [|assumption].
  rewrite HP, Hu in E4.
  (* - x *)
  assert (T5 : Rabs (SF2R Y4 - SF2R X) <= 9314 / 10000000000000).
  { apply Rabs_le. lra. }
  destruct (SFsub_error Y4 X F4 Xfin ltac:(lra)) as [F5 E5].
  fold D in F5, E5.
  apply err_step with (T := 9314 / 10000000000000) in E5; [|assumption].
  rewrite Hu in E5.
  split; [assumption|]. apply Rabs_def1; lra.
Qed.

End RoundTrip.

End Binary64.

(** * Degrees, radians and back *)

(** The round trip as the program computes it. *)
Lemma round_trip_unfold (x : float) :
  Utils.radianToDegree (Utils.degreeToRadian x)
  = x * Std.M_PI / 180 * 180 / Std.M_PI.
Proof. reflexivity. Qed.

(** C9 as stated fails: the finite double 1e8 comes back from the round
    trip too far away to be [areEqual] to itself within 1e-9, and 1e308
    comes back as an infinity. *)
Lemma round_trip_fails_at_1e8 :
  Std.isfinite 100000000 = true /\
  Utils.radianToDegree (Utils.degreeToRadian 100000000)
  = 99999999.999999985 /\
  Utils.areEqual (Utils.radianToDegree (Utils.degreeToRadian 100000000))
    100000000 Utils.default_epsilon = false.
Proof. repeat split. Qed.

Example round_trip_12345678 :
  Utils.areEqual (Utils.radianToDegree (Utils.degreeToRadian 12345678))
    12345678 Utils.default_epsilon = false.
Proof. reflexivity. Qed.

Example round_trip_overflows :
  Std.isfinite 1e308 = true /\
  Utils.radianToDegree (Utils.degreeToRadian 1e308) = infinity.
Proof. split; reflexivity. Qed.

(** C9, amended: for every double [x] with [|x| <= 2097152] (2 to the 21),
    the round trip [radianToDegree (degreeToRadian x)] is [areEqual] to
    [x] within the epsilon 1e-9. *)
Theorem round_trip_within_epsilon (x : float) :
  (Std.abs x <=? 2097152) = true ->
  Utils.areEqual (Utils.radianToDegree (Utils.degreeToRadian x)) x
    Utils.default_epsilon = true.
Proof.
  intros H. unfold Std.abs in H. rewrite leb_spec, abs_spec in H.
  change (Prim2SF 2097152) with (S754_finite false 4503599627370496 (-31)) in H.
  destruct (Binary64.SFleb_abs_bound _ 4503599627370496 (-31)
              (Prim2SF_valid x) eq_refl H) as [Hfin Hx].
  rewrite Binary64.value_2_21 in Hx.
  unfold Utils.areEqual, Std.abs. rewrite ltb_spec, abs_spec.
  change (Prim2SF Utils.default_epsilon)
    with (S754_finite false 4835703278458517 (-82)).
  pose proof (Prim2SF_valid
                (Utils.radianToDegree (Utils.degreeToRadian x) - x)) as Hvalid.
  unfold Utils.radianToDegree, Utils.degreeToRadian in *.
  rewrite sub_spec, div_spec, mul_spec, div_spec, mul_spec in *.
  unfold SF64sub, SF64div, SF64mul in *.
  change (Prim2SF Std.M_PI) with IEEE.SF_PI in *.
  change (Prim2SF 180) with IEEE.SF_180 in *.
  destruct (Binary64.round_trip_SF (Prim2SF x) Hfin Hx) as [HfinD HD].
  apply Binary64.SFltb_abs; [assumption|reflexivity|assumption|].
  now rewrite Binary64.value_epsilon.
Qed.

Lemma round_trip_within_epsilon_witness :
  Utils.areEqual (Utils.radianToDegree (Utils.degreeToRadian 2097152))
    2097152 Utils.default_epsilon = true.
Proof.
  apply (round_trip_within_epsilon 2097152). reflexivity.
Defined.

Example round_trip_180 :
  Utils.radianToDegree (Utils.degreeToRadian 180) = 180.
Proof. reflexivity. Qed.

(** * Algebra of the binary64 operations

    Identities of [SpecFloat] at precision 53 that hold for every operand,
    special values included, and two more error bounds. *)

Module SFAlgebra.

Import IEEE.

Lemma SFadd_comm x y : SFadd prec emax x y = SFadd prec emax y x.
Proof.
  destruct x as [sx|sx| |sx mx ex], y as [sy|sy| |sy my ey]; simpl;
    try reflexivity; try (now destruct sx, sy).
  now rewrite (Z.min_comm ex ey), Z.add_comm.
Qed.

Lemma SFmul_comm x y : SFmul prec emax x y = SFmul prec emax y x.
Proof.
  destruct x as [sx|sx| |sx mx ex], y as [sy|sy| |sy my ey]; simpl;
    try reflexivity; try (now rewrite xorb_comm).
  now rewrite xorb_comm, Pos.mul_comm, Z.add_comm.
Qed.

Lemma SFabs_binary_round_aux s s' m e l :
  SFabs (binary_round_aux prec emax s m e l)
  = SFabs (binary_round_aux prec emax s' m e l).
Proof.
  unfold binary_round_aux.
  destruct (shr_fexp prec emax m e l) as [mrs' e'].
  destruct (shr_fexp prec emax _ e' loc_Exact) as [mrs'' e''].
  destruct (shr_m mrs'') as [|p|p]; try reflexivity.
  now destruct (e'' <=? emax - prec)%Z.
Qed.

Lemma SFopp_binary_round_aux s m e l :
  binary_round_aux prec emax (negb s) m e l
  = SFopp (binary_round_aux prec emax s m e l).
Proof.
  unfold binary_round_aux.
  destruct (shr_fexp prec emax m e l) as [mrs' e'].
  destruct (shr_fexp prec emax _ e' loc_Exact) as [mrs'' e''].
  destruct (shr_m mrs'') as [|p|p]; try reflexivity.
  now destruct (e'' <=? emax - prec)%Z.
Qed.

Lemma SFabs_binary_normalize m e :
  SFabs (binary_normalize prec emax (- m) e false)
  = SFabs (binary_normalize prec emax m e false).
Proof.
  destruct m as [|p|p]; simpl; try reflexivity; unfold binary_round;
    destruct (shl_align p e _) as [mz ez]; apply SFabs_binary_round_aux.
Qed.

Lemma SFabs_SFsub_sym x y :
  SFabs (SFsub prec emax x y) = SFabs (SFsub prec emax y x).
Proof.
  destruct x as [sx|sx| |sx mx ex], y as [sy|sy| |sy my ey]; simpl;
    try reflexivity; try (now destruct sx, sy).
  rewrite (Z.min_comm ey ex).
  rewrite <- SFabs_binary_normalize. f_equal. f_equal. lia.
Qed.

Lemma SFsub_zero_r x : SFsub prec emax x (S754_zero false) = x.
Proof. destruct x as [[|]|s| |s m e]; reflexivity. Qed.

Lemma SFsub_diag x :
  SFsub prec emax x x
  = match x with
    | S754_zero _ | S754_finite _ _ _ => S754_zero false
    | _ => S754_nan
    end.
Proof.
  destruct x as [[|]|[|]| |s m e]; try reflexivity.
  simpl. set (X := cond_Zopp s _).
  now replace (X - X)%Z with 0%Z by lia.
Qed.

Lemma SFabs_SFopp x : SFabs (SFopp x) = SFabs x.
Proof. now destruct x. Qed.

Lemma SFmul_opp_l x y :
  SFmul prec emax (SFopp x) y = SFopp (SFmul prec emax x y).
Proof.
  destruct x as [sx|sx| |sx mx ex], y as [sy|sy| |sy my ey]; simpl;
    try reflexivity; try (now destruct sx, sy).
  rewrite <- SFopp_binary_round_aux. now destruct sx, sy.
Qed.

Lemma SFdiv_opp_l x y :
  SFdiv prec emax (SFopp x) y = SFopp (SFdiv prec emax x y).
Proof.
  destruct x as [sx|sx| |sx mx ex], y as [sy|sy| |sy my ey]; simpl;
    try reflexivity; try (now destruct sx, sy).
  destruct (SFdiv_core_binary prec emax (Z.pos mx) ex (Z.pos my) ey)
    as [[mz ez] lz].
  rewrite <- SFopp_binary_round_aux. now destruct sx, sy.
Qed.


Lemma SFltb_abs_fin x y :
  SFltb (SFabs x) y = true -> IEEE.is_fin x = true.
Proof.
  destruct x as [s|s| |s m e]; try reflexivity;
    destruct y as [s'|[|]| |s' m' e']; discriminate.
Qed.

Local Open Scope R_scope.

(** An integer located by a record is its mantissa, with no bits set. *)
Lemma inb_integer M r s m :
  inb M r s (IZR m) -> M = m /\ r = false /\ s = false.
Proof.
  destruct r, s; simpl; intros H.
  - exfalso. destruct H as [H1 H2].
    assert (H3 : IZR M < IZR m) by lra. apply lt_IZR in H3.
    assert (H4 : IZR m < IZR (M + 1)) by (rewrite plus_IZR; lra).
    apply lt_IZR in H4. lia.
  - exfalso. assert (H' : IZR (2 * m) = IZR (2 * M + 1)).
    { rewrite plus_IZR, !mult_IZR. lra. }
    apply eq_IZR in H'. lia.
  - exfalso. destruct H as [H1 H2].
    assert (H3 : IZR M < IZR m) by lra. apply lt_IZR in H3.
    assert (H4 : IZR m < IZR (M + 1)) by (rewrite plus_IZR; lra).
    apply lt_IZR in H4. lia.
  - apply eq_IZR in H. auto.
Qed.

Lemma Zdigits2_shift m k :
  (0 <= k)%Z -> Zdigits2 (Z.pos m * 2 ^ k) = (Zdigits2 (Z.pos m) + k)%Z.
Proof.
  intros Hk.
  pose proof (Binary64.Zdigits2_lt (Z.pos m) ltac:(lia)) as Hhi.
  pose proof (Binary64.Zdigits2_lower (Z.pos m) ltac:(lia)) as Hlo.
  set (d := Zdigits2 (Z.pos m)) in *.
  assert (Hd : (1 <= d)%Z) by (unfold d; simpl; lia).
  assert (H2k : (0 < 2 ^ k)%Z) by (apply Z.pow_pos_nonneg; lia).
  apply Z.le_antisymm.
  - apply Binary64.Zdigits2_le; [|lia]. rewrite Z.pow_add_r by lia. nia.
  - replace (d + k)%Z with (d - 1 + k + 1)%Z by lia.
    apply Binary64.Zdigits2_ge; [|lia]. rewrite Z.pow_add_r by lia. nia.
Qed.

(** A valid number scaled by a power of two rounds back to itself. *)
Lemma binary_round_aux_scaled s m e k :
  SpecFloat.bounded prec emax m e = true -> (0 <= k)%Z ->
  binary_round_aux prec emax s (Z.pos m * 2 ^ k) (e - k) loc_Exact
  = S754_finite s m e.
Proof.
  intros Hb Hk.
  assert (Hcanon : fexp prec emax (Zdigits2 (Z.pos m) + e) = e).
  { unfold SpecFloat.bounded, canonical_mantissa in Hb.
    apply andb_true_iff in Hb as [Hb _]. now apply Z.eqb_eq in Hb. }
  assert (Hemax : (e <=? emax - prec)%Z = true).
  { unfold SpecFloat.bounded in Hb. now apply andb_true_iff in Hb as [_ Hb]. }
  assert (H2k : (0 < 2 ^ k)%Z) by (apply Z.pow_pos_nonneg; lia).
  rewrite Binary64.binary_round_aux_finish.
  destruct (Binary64.shr_fexp_located (Z.pos m * 2 ^ k) (e - k) loc_Exact
              (IZR (Z.pos m * 2 ^ k) * pow2 (e - k))) as [Hloc He'].
  { apply Binary64.located_exact. lia. }
  rewrite Zdigits2_shift in He' by assumption.
  replace (Zdigits2 (Z.pos m) + k + (e - k))%Z
    with (Zdigits2 (Z.pos m) + e)%Z in He' by lia.
  rewrite Hcanon in He'. rewrite Z.max_r in He' by lia.
  rewrite He' in *.
  destruct (fst (shr_fexp prec emax (Z.pos m * 2 ^ k) (e - k) loc_Exact))
    as [M r0 s0].
  destruct Hloc as [_ Hin]. cbn [shr_m shr_r shr_s] in Hin.
  replace (IZR (Z.pos m * 2 ^ k) * pow2 (e - k) * pow2 (- e))
    with (IZR (Z.pos m)) in Hin.
  2:{ rewrite mult_IZR, Binary64.IZR_pow2 by assumption.
      rewrite !Rmult_assoc, <- !Binary64.pow2_add.
      replace (k + (e - k + - e))%Z with 0%Z by lia.
      rewrite Binary64.pow2_0. ring. }
  apply inb_integer in Hin as (-> & -> & ->).
  cbn [shr_m loc_of_shr_record round_nearest_even].
  unfold round_finish, shr_fexp. rewrite Hcanon, Z.sub_diag.
  cbn [shr shr_record_of_loc shr_m]. now rewrite Hemax.
Qed.

Lemma SFmul_1_l y :
  valid_binary y = true ->
  SFmul prec emax (S754_finite false 4503599627370496 (-52)) y = y.
Proof.
  destruct y as [sy|sy| |sy my ey]; intros Hv; try reflexivity.
  cbn [SFmul xorb].
  replace (Z.pos (4503599627370496 * my)) with (Z.pos my * 2 ^ 52)%Z by lia.
  replace (-52 + ey)%Z with (ey - 52)%Z by lia.
  apply binary_round_aux_scaled; [exact Hv|lia].
Qed.


(** *** A product followed by a quotient *)

Lemma two_roundings (t y1 y2 c : R) :
  2 <= c ->
  Rabs (y1 - t) <= u * Rabs t + eta ->
  Rabs (y2 - y1 / c) <= u * Rabs (y1 / c) + eta ->
  Rabs (y2 - t / c) <= pow2 (-51) * Rabs (t / c) + pow2 (-1074).
Proof.
  intros Hc H1 H2.
  pose proof Binary64.u_value as Hu. pose proof Binary64.eta_pos as Heta.
  assert (H51 : pow2 (-51) = 4 * u).
  { unfold u. replace (-51)%Z with (2 + -53)%Z by lia.
    rewrite Binary64.pow2_add. f_equal.
    rewrite <- Binary64.IZR_pow2 by lia. reflexivity. }
  assert (H1074 : pow2 (-1074) = 2 * eta).
  { unfold eta. replace (-1074)%Z with (-1075 + 1)%Z by lia.
    now rewrite Binary64.pow2_succ. }
  rewrite H51, H1074.
  assert (Hic : 0 < / c <= / 2).
  { split; [apply Rinv_0_lt_compat; lra|].
    apply Rinv_le_contravar; lra. }
  unfold Rdiv in *. rewrite Rabs_mult in *.
  rewrite (Rabs_pos_eq (/ c)) in * by lra.
  assert (Hy1 : Rabs y1 <= Rabs t + Rabs (y1 - t)).
  { replace y1 with (t + (y1 - t)) at 1 by lra. apply Rabs_triang. }
  assert (Hsplit : Rabs (y2 - t * / c)
                   <= Rabs (y2 - y1 * / c) + Rabs (y1 - t) * / c).
  { replace (y2 - t * / c) with ((y2 - y1 * / c) + (y1 - t) * / c) by lra.
    eapply Rle_trans; [apply Rabs_triang|].
    rewrite (Rabs_mult (y1 - t)), (Rabs_pos_eq (/ c)) by lra. lra. }
  pose proof (Rabs_pos t) as Ha. pose proof (Rabs_pos (y1 - t)) as Hb.
  set (a := Rabs t) in *. set (b := Rabs (y1 - t)) in *.
  set (g := Rabs y1) in *. set (d := Rabs (y2 - y1 * / c)) in *.
  set (ic := / c) in *. clearbody a b g d ic.
  assert (Hg : g * ic <= (a + b) * ic) by (apply Rmult_le_compat_r; lra).
  assert (Hb' : b * ic <= (u * a + eta) * ic) by (apply Rmult_le_compat_r; lra).
  assert (Haic : 0 <= a * ic) by (apply Rmult_le_pos; lra).
  assert (Heic : eta * ic <= eta * / 2) by (apply Rmult_le_compat_l; lra).
  assert (Heic0 : 0 <= eta * ic) by (apply Rmult_le_pos; lra).
  rewrite Hu in *.
  set (q := a * ic) in *. set (ei := eta * ic) in *.
  replace ((a + b) * ic) with (q + b * ic) in Hg by (unfold q; ring).
  replace ((/ 9007199254740992 * a + eta) * ic)
    with (/ 9007199254740992 * q + ei) in Hb' by (unfold q, ei; ring).
  replace (4 * / 9007199254740992 * (a * ic))
    with (4 * / 9007199254740992 * q) by (unfold q; ring).
  set (gi := g * ic) in *. set (bi := b * ic) in *.
  clearbody q ei gi bi. lra.
Qed.

Lemma pow2_800_facts :
  1 <= pow2 800 /\ 1048576 * pow2 800 <= pow2 900.
Proof.
  split.
  - change 1 with (pow2 0). apply Binary64.pow2_le. lia.
  - replace 1048576 with (pow2 20)
      by (rewrite <- Binary64.IZR_pow2 by lia; reflexivity).
    rewrite <- Binary64.pow2_add. apply Binary64.pow2_le. lia.
Qed.

Lemma value_2_800 : IZR 4503599627370496 * pow2 748 = pow2 800.
Proof.
  replace (IZR 4503599627370496) with (pow2 52)
    by (rewrite <- Binary64.IZR_pow2 by lia; reflexivity).
  rewrite <- Binary64.pow2_add. reflexivity.
Qed.

Section Conversions.

Variable X : spec_float.
Hypothesis Xfin : is_fin X = true.
Hypothesis Xbound : Rabs (SF2R X) <= pow2 800.

Lemma degreeToRadian_SF :
  let Y := SFdiv prec emax (SFmul prec emax X SF_PI) SF_180 in
  is_fin Y = true /\
  Rabs (SF2R Y - SF2R X * SF2R SF_PI / 180)
  <= pow2 (-51) * Rabs (SF2R X * SF2R SF_PI / 180) + pow2 (-1074).
Proof.
  intros Y. unfold Y.
  pose proof Binary64.u_value as Hu. pose proof Binary64.eta_small as Heta.
  pose proof Binary64.eta_pos as Heta0.
  pose proof Binary64.SF2R_PI as HP. pose proof Binary64.SF2R_180 as H180.
  destruct pow2_800_facts as [HK1 HK2].
  set (K := pow2 800) in *. set (L := pow2 900) in *.
  pose proof Xbound as Xb. apply Binary64.Rabs_le_inv in Xb.
  assert (T1 : Rabs (SF2R X * SF2R SF_PI) <= 4 * K).
  { rewrite HP. apply Rabs_le. lra. }
  destruct (Binary64.SFmul_error X SF_PI Xfin eq_refl) as [F1 E1];
    [fold L; lra|].
  pose proof (Binary64.err_step _ _ _ E1 T1) as B1. rewrite Hu in B1.
  pose proof (Binary64.Rabs_le_inv _ _ T1) as T1'.
  destruct (Binary64.SFdiv_error (SFmul prec emax X SF_PI) false
              6333186975989760 (-45) F1) as [F2 E2].
  { fold SF_180 L. rewrite H180. apply Rabs_def1; lra. }
  fold SF_180 in F2, E2. rewrite H180 in E2.
  split; [assumption|].
  apply two_roundings with (y1 := SF2R (SFmul prec emax X SF_PI));
    [lra|assumption|assumption].
Qed.

Lemma radianToDegree_SF :
  let Y := SFdiv prec emax (SFmul prec emax X SF_180) SF_PI in
  is_fin Y = true /\
  Rabs (SF2R Y - SF2R X * 180 / SF2R SF_PI)
  <= pow2 (-51) * Rabs (SF2R X * 180 / SF2R SF_PI) + pow2 (-1074).
Proof.
  intros Y. unfold Y.
  pose proof Binary64.u_value as Hu. pose proof Binary64.eta_small as Heta.
  pose proof Binary64.eta_pos as Heta0.
  pose proof Binary64.SF2R_PI as HP. pose proof Binary64.SF2R_180 as H180.
  destruct pow2_800_facts as [HK1 HK2].
  set (K := pow2 800) in *. set (L := pow2 900) in *.
  pose proof Xbound as Xb. apply Binary64.Rabs_le_inv in Xb.
  assert (T1 : Rabs (SF2R X * SF2R SF_180) <= 180 * K).
  { rewrite H180. apply Rabs_le. lra. }
  destruct (Binary64.SFmul_error X SF_180 Xfin eq_refl) as [F1 E1];
    [fold L; lra|].
  pose proof (Binary64.err_step _ _ _ E1 T1) as B1. rewrite Hu in B1.
  pose proof (Binary64.Rabs_le_inv _ _ T1) as T1'.
  destruct (Binary64.SFdiv_error (SFmul prec emax X SF_180) false
              7074237752028440 (-51) F1) as [F2 E2].
  { fold SF_PI L. rewrite HP. apply Rabs_def1; lra. }
  fold SF_PI in F2, E2. rewrite H180 in E1.
  split; [assumption|].
  apply two_roundings with (y1 := SF2R (SFmul prec emax X SF_180));
    [rewrite HP; lra|assumption|assumption].
Qed.

End Conversions.

End SFAlgebra.

(** The same identities on the primitive floats. *)

Module FloatAlgebra.

Import IEEE.

Lemma is_finite_Prim2SF x : is_finite x = is_fin (Prim2SF x).
Proof.
  unfold is_finite.
  destruct (is_nan x) eqn:Hn.
  - apply FloatFacts.is_nan_Prim2SF in Hn. now rewrite Hn.
  - destruct (is_infinity x) eqn:Hi.
    + apply FloatFacts.is_infinity_Prim2SF in Hi as [s Hi]. now rewrite Hi.
    + destruct (Prim2SF x) as [s|s| |s m e] eqn:E; try reflexivity.
      * assert (H : is_infinity x = true)
          by (apply FloatFacts.is_infinity_Prim2SF; eauto).
        congruence.
      * assert (H : is_nan x = true) by now apply FloatFacts.is_nan_Prim2SF.
        congruence.
Qed.

Lemma add_comm a b : a + b = b + a.
Proof.
  apply Prim2SF_inj. rewrite !add_spec. apply SFAlgebra.SFadd_comm.
Qed.

Lemma mul_comm a b : a * b = b * a.
Proof.
  apply Prim2SF_inj. rewrite !mul_spec. apply SFAlgebra.SFmul_comm.
Qed.

Lemma sub_zero_r v : v - 0 = v.
Proof.
  apply Prim2SF_inj. rewrite sub_spec. apply SFAlgebra.SFsub_zero_r.
Qed.

Lemma abs_sub_sym a b : abs (a - b) = abs (b - a).
Proof.
  apply Prim2SF_inj. rewrite !abs_spec, !sub_spec. apply SFAlgebra.SFabs_SFsub_sym.
Qed.

Lemma abs_opp v : abs (- v) = abs v.
Proof.
  apply Prim2SF_inj. rewrite !abs_spec, opp_spec. apply SFAlgebra.SFabs_SFopp.
Qed.

Lemma mul_opp_l x y : (- x) * y = - (x * y).
Proof.
  apply Prim2SF_inj. rewrite opp_spec, !mul_spec, opp_spec. apply SFAlgebra.SFmul_opp_l.
Qed.

Lemma div_opp_l x y : (- x) / y = - (x / y).
Proof.
  apply Prim2SF_inj. rewrite opp_spec, !div_spec, opp_spec. apply SFAlgebra.SFdiv_opp_l.
Qed.

Lemma mul_1_l (y : float) : 1 * y = y.
Proof.
  apply Prim2SF_inj. rewrite mul_spec.
  change (Prim2SF 1) with (S754_finite false 4503599627370496 (-52)).
  apply SFAlgebra.SFmul_1_l, Prim2SF_valid.
Qed.

Lemma isZero_finite (value epsilon : float) :
  Utils.isZero value epsilon = true -> Std.isfinite value = true.
Proof.
  unfold Utils.isZero, Std.abs, Std.isfinite.
  rewrite ltb_spec, abs_spec, is_finite_Prim2SF. apply SFAlgebra.SFltb_abs_fin.
Qed.

Lemma abs_le_2_800 (x : float) :
  (abs x <=? 0x1p+800) = true ->
  is_fin (Prim2SF x) = true /\
  (Rabs (SF2R (Prim2SF x)) <= pow2 800)%R.
Proof.
  intros H. rewrite leb_spec, abs_spec in H.
  change (Prim2SF 0x1p+800)
    with (S754_finite false 4503599627370496 748) in H.
  destruct (Binary64.SFleb_abs_bound _ 4503599627370496 748
              (Prim2SF_valid x) eq_refl H) as [Hfin Hx].
  now rewrite SFAlgebra.value_2_800 in Hx.
Qed.

End FloatAlgebra.

(** * Further properties of the calculator and of the utilities *)

Import IEEE Exact SFAlgebra FloatAlgebra.

(** ** [BasicCalculator] *)

(** X1: [add] and [multiply] do not depend on the order of their operands:
    the outcome and the object afterwards are the same for [a, b] and for
    [b, a], whatever the doubles. *)
Theorem add_and_multiply_commute (a b : float) (this : t) :
  add a b this = add b a this /\ multiply a b this = multiply b a this.
Proof.
  unfold add, multiply. now rewrite (add_comm a b), (mul_comm a b).
Qed.

(** An arithmetic call either throws and leaves the object alone, or
    returns its result and stores it. *)
Lemma run_outcome (op : operation) (a b : float) (this : t) :
  (exists e, run op a b this = (Throw e, this)) \/
  (exists r, run op a b this = (Return r, with_last_result this r)).
Proof.
  destruct op; simpl; unfold add, substract, multiply, divide.
  - destruct (Std.isinf (a + b)); [left|right]; eexists; reflexivity.
  - destruct (Std.isinf (a - b)); [left|right]; eexists; reflexivity.
  - destruct (Std.isinf (a * b)); [left|right]; eexists; reflexivity.
  - destruct (Utils.isZero b Utils.default_epsilon); [left|right];
      eexists; reflexivity.
Qed.

(** X2: after an arithmetic call that returned [r], [getLastResult]
    returns [r], and it still returns [r] after any arithmetic call that
    throws: the last successful result stays readable. *)
Theorem last_result_reflects_last_success (op1 : operation) (a b r : float)
  (this this1 : t) :
  run op1 a b this = (Return r, this1) ->
  fst (getLastResult this1) = Return r /\
  (forall (op2 : operation) (c d : float) (e : exn) (this2 : t),
     run op2 c d this1 = (Throw e, this2) ->
     fst (getLastResult this2) = Return r).
Proof.
  intros H1.
  assert (Hr : last_result_ this1 = r).
  { destruct (run_outcome op1 a b this) as [[e He]|[r' Hr']]; [congruence|].
    rewrite Hr' in H1. injection H1 as <- <-. reflexivity. }
  split; [simpl; now rewrite Hr|].
  intros op2 c d e this2 H2.
  destruct (run_outcome op2 c d this1) as [[e' He']|[r' Hr']];
    [|congruence].
  assert (this2 = this1) by congruence. subst this2. simpl. now rewrite Hr.
Qed.

Lemma last_result_reflects_last_success_witness :
  fst (getLastResult (mk 0 5)) = Return 5 /\
  (forall (op2 : operation) (c d : float) (e : exn) (this2 : t),
     run op2 c d (mk 0 5) = (Throw e, this2) ->
     fst (getLastResult this2) = Return 5).
Proof.
  apply (last_result_reflects_last_success Add 2 3 5 init (mk 0 5)).
  reflexivity.
Defined.

(** X3: the memory operations compose as a single slot: the last store
    wins, a clear after a store is a clear, [memoryClear] is a store of 0,
    and [clear] commutes with a store. *)
Theorem memory_operations_compose (v w : float) (this : t) :
  (memoryStore v ;; memoryStore w) this = memoryStore w this /\
  (memoryStore v ;; memoryClear) this = memoryClear this /\
  memoryClear this = memoryStore 0 this /\
  (memoryStore v ;; clear) this = (clear ;; memoryStore v) this /\
  (clear ;; clear) this = clear this.
Proof. repeat split. Qed.

(** X4: [divide] throws only when the divisor is a finite double: a NaN
    or an infinite divisor is divided by. *)
Theorem divide_throws_only_on_finite_divisor (a b : float) (this : t) (e : exn) :
  fst (divide a b this) = Throw e -> Std.isfinite b = true.
Proof.
  unfold divide. destruct (Utils.isZero b Utils.default_epsilon) eqn:Hz.
  - intros _. now apply isZero_finite with (epsilon := Utils.default_epsilon).
  - discriminate.
Qed.

Lemma divide_throws_only_on_finite_divisor_witness : Std.isfinite 0 = true.
Proof.
  apply (divide_throws_only_on_finite_divisor 1 0 init
           (CalculatorError "Division by zero")).
  reflexivity.
Defined.

(** X5: the zero test ignores the sign: [isZero (- b)] is [isZero b] for
    every epsilon, so [divide a (- b)] throws exactly when [divide a b]
    does. *)
Theorem divide_guard_ignores_sign (a b epsilon : float) (this : t) :
  Utils.isZero (- b) epsilon = Utils.isZero b epsilon /\
  returned (fst (divide a (- b) this)) = returned (fst (divide a b this)).
Proof.
  assert (H : forall eps, Utils.isZero (- b) eps = Utils.isZero b eps).
  { intros eps. unfold Utils.isZero, Std.abs. now rewrite abs_opp. }
  split; [apply H|]. unfold divide. rewrite H.
  now destruct (Utils.isZero b Utils.default_epsilon).
Qed.

(** ** [Calc::Utils]: comparisons and validity *)

(** X6: [areEqual] is symmetric in its two operands. *)
Theorem areEqual_symmetric (a b epsilon : float) :
  Utils.areEqual a b epsilon = Utils.areEqual b a epsilon.
Proof.
  unfold Utils.areEqual, Std.abs. now rewrite abs_sub_sym.
Qed.

(** X7: a double is [areEqual] to itself exactly when [isFinite] holds
    of it and the epsilon is positive: an infinity or a NaN is not
    [areEqual] to itself. *)
Theorem areEqual_same_operand (a epsilon : float) :
  Utils.areEqual a a epsilon = Utils.isFinite a && (0 <? epsilon).
Proof.
  unfold Utils.areEqual, Utils.isFinite, Std.abs, Std.isfinite.
  rewrite is_finite_Prim2SF, !ltb_spec, abs_spec, sub_spec.
  unfold SF64sub. rewrite SFsub_diag.
  change (Prim2SF 0) with (S754_zero false).
  destruct (Prim2SF a) as [s|s| |s m e]; reflexivity.
Qed.

(** X8: [isZero value epsilon] is [areEqual value 0 epsilon]. *)
Theorem isZero_is_areEqual_to_zero (value epsilon : float) :
  Utils.isZero value epsilon = Utils.areEqual value 0 epsilon.
Proof.
  unfold Utils.isZero, Utils.areEqual. now rewrite sub_zero_r.
Qed.


(** ** Angles *)

(** X10: both conversions are odd: negating the argument negates the
    result, bit for bit. *)
Theorem angle_conversions_are_odd (x : float) :
  Utils.degreeToRadian (- x) = - Utils.degreeToRadian x /\
  Utils.radianToDegree (- x) = - Utils.radianToDegree x.
Proof.
  unfold Utils.degreeToRadian, Utils.radianToDegree.
  now rewrite !mul_opp_l, !div_opp_l.
Qed.

(** X11: for [|x| <= 2^800], [degreeToRadian x] is finite and differs
    from the real number [x * M_PI / 180] by at most [2^-51] times its
    magnitude plus [2^-1074]. *)
Theorem degreeToRadian_accuracy (x : float) :
  (Std.abs x <=? 0x1p+800) = true ->
  Std.isfinite (Utils.degreeToRadian x) = true /\
  (Rabs (SF2R (Prim2SF (Utils.degreeToRadian x))
         - SF2R (Prim2SF x) * SF2R (Prim2SF Std.M_PI) / 180)
   <= pow2 (-51) * Rabs (SF2R (Prim2SF x) * SF2R (Prim2SF Std.M_PI) / 180)
      + pow2 (-1074))%R.
Proof.
  intros H. destruct (abs_le_2_800 x H) as [Hfin Hx].
  unfold Std.isfinite. rewrite is_finite_Prim2SF.
  unfold Utils.degreeToRadian. rewrite div_spec, mul_spec.
  unfold SF64div, SF64mul.
  change (Prim2SF Std.M_PI) with SF_PI. change (Prim2SF 180) with SF_180.
  apply (degreeToRadian_SF (Prim2SF x) Hfin Hx).
Qed.

Lemma degreeToRadian_accuracy_witness :
  Std.isfinite (Utils.degreeToRadian 180) = true /\
  (Rabs (SF2R (Prim2SF (Utils.degreeToRadian 180))
         - SF2R (Prim2SF 180) * SF2R (Prim2SF Std.M_PI) / 180)
   <= pow2 (-51) * Rabs (SF2R (Prim2SF 180) * SF2R (Prim2SF Std.M_PI) / 180)
      + pow2 (-1074))%R.
Proof. apply (degreeToRadian_accuracy 180). reflexivity. Defined.

(** X12: for [|x| <= 2^800], [radianToDegree x] is finite and differs
    from the real number [x * 180 / M_PI] by at most [2^-51] times its
    magnitude plus [2^-1074]. *)
Theorem radianToDegree_accuracy (x : float) :
  (Std.abs x <=? 0x1p+800) = true ->
  Std.isfinite (Utils.radianToDegree x) = true /\
  (Rabs (SF2R (Prim2SF (Utils.radianToDegree x))
         - SF2R (Prim2SF x) * 180 / SF2R (Prim2SF Std.M_PI))
   <= pow2 (-51) * Rabs (SF2R (Prim2SF x) * 180 / SF2R (Prim2SF Std.M_PI))
      + pow2 (-1074))%R.
Proof.
  intros H. destruct (abs_le_2_800 x H) as [Hfin Hx].
  unfold Std.isfinite. rewrite is_finite_Prim2SF.
  unfold Utils.radianToDegree. rewrite div_spec, mul_spec.
  unfold SF64div, SF64mul.
  change (Prim2SF Std.M_PI) with SF_PI. change (Prim2SF 180) with SF_180.
  apply (radianToDegree_SF (Prim2SF x) Hfin Hx).
Qed.

Lemma radianToDegree_accuracy_witness :
  Std.isfinite (Utils.radianToDegree 1) = true /\
  (Rabs (SF2R (Prim2SF (Utils.radianToDegree 1))
         - SF2R (Prim2SF 1) * 180 / SF2R (Prim2SF Std.M_PI))
   <= pow2 (-51) * Rabs (SF2R (Prim2SF 1) * 180 / SF2R (Prim2SF Std.M_PI))
      + pow2 (-1074))%R.
Proof. apply (radianToDegree_accuracy 1). reflexivity. Defined.

(** ** [factorial] *)

Lemma interval_snoc : forall (k : nat) (i : Z),
  Spec.interval i (S k) = Spec.interval i k ++ [(i + Z.of_nat k)%Z].
Proof.
  induction k as [|k IH]; intros i.
  - simpl. now rewrite Z.add_0_r.
  - change (Spec.interval i (S (S k))) with (i :: Spec.interval (i + 1) (S k)).
    rewrite IH. simpl. do 3 f_equal. lia.
Qed.

Lemma product_upto_step (n : Z) :
  (2 <= n)%Z ->
  Spec.product_upto n = Spec.product_upto (n - 1) * Int.to_double n.
Proof.
  intros Hn. unfold Spec.product_upto.
  replace (Z.to_nat (n - 1)) with (S (Z.to_nat (n - 1 - 1))) by lia.
  rewrite interval_snoc, fold_left_app. cbn [fold_left]. do 2 f_equal. lia.
Qed.

(** X13: for [2 <= n <= 170], [factorial n] is [factorial (n - 1)]
    multiplied by [n] as a double. *)
Theorem factorial_recurrence (n : Z) (fuel : nat) :
  (2 <= n <= 170)%Z -> (Z.to_nat n <= fuel)%nat ->
  exists r,
    Utils.factorial fuel (n - 1) = Some (Return r) /\
    Utils.factorial fuel n = Some (Return (r * Int.to_double n)).
Proof.
  intros Hn Hfuel. exists (Spec.product_upto (n - 1)). split.
  - destruct (Z.eq_dec n 2) as [->|Hne].
    + now rewrite factorial_0_1 by lia.
    + apply factorial_returns_product; lia.
  - rewrite factorial_returns_product by lia. now rewrite product_upto_step by lia.
Qed.

Lemma factorial_recurrence_witness :
  exists r,
    Utils.factorial 5 (5 - 1) = Some (Return r) /\
    Utils.factorial 5 5 = Some (Return (r * Int.to_double 5)).
Proof. apply (factorial_recurrence 5 5); lia. Defined.




(** The next product is rounded. *)
Example factorial_23_inexact :
  SF_is_integer (Prim2SF (Spec.product_upto 23)) (Zfact 23) = false.
Proof. vm_compute. reflexivity. Qed.

(** ** [power] *)

Lemma power_contract_above_int_min_witness :
  ((-3)%Z = 0%Z -> Utils.power (S 33) 2 (-3) = Some (Return 1)) /\
  ((-3 < 0)%Z -> Utils.isZero 2 Utils.default_epsilon = true ->
     Utils.power (S 33) 2 (-3) =
       Some (Throw (invalid_argument "Cannot raise zero to negative power"))) /\
  ((-3 < 0)%Z -> Utils.isZero 2 Utils.default_epsilon = false ->
     exists r,
       Utils.power 33 2 (Int.neg (-3)) = Some (Return r) /\
       Utils.power (S 33) 2 (-3) = Some (Return (1 / r))) /\
  ((0 < -3)%Z ->
     Utils.power (S 33) 2 (-3) =
       Some (Return (Spec.binexp PrimFloat.mul 1 2 (Z.to_pos (-3))))).
Proof.
  apply (power_contract_above_int_min 2 (-3) 33); [|lia].
  unfold Int.min_signed, Int.max_signed. lia.
Defined.

Lemma power_terminates_witness :
  exists o, Utils.power 14 2 (-1000) = Some o.
Proof.
  apply (power_terminates 2 (-1000) 14).
  - unfold Int.min_signed, Int.max_signed. lia.
  - simpl. lia.
Defined.

(** X17: with exponents 1, 2 and 3 [power] returns [base], [base * base]
    and [base * (base * base)] for every double, and with exponent -1 the
    reciprocal of a base that is not approximately zero. *)
Theorem power_small_exponents (base : float) (fuel : nat) :
  (4 <= fuel)%nat ->
  Utils.power fuel base 1 = Some (Return base) /\
  Utils.power fuel base 2 = Some (Return (base * base)) /\
  Utils.power fuel base 3 = Some (Return (base * (base * base))) /\
  (Utils.isZero base Utils.default_epsilon = false ->
   Utils.power fuel base (-1) = Some (Return (1 / base))).
Proof.
  intros Hfuel.
  assert (H1 : Utils.power fuel base 1 = Some (Return base)).
  { rewrite power_positive by (simpl; lia). simpl. now rewrite mul_1_l. }
  repeat split.
  - exact H1.
  - rewrite power_positive by (simpl; lia). simpl. now rewrite mul_1_l.
  - rewrite power_positive by (simpl; lia). simpl. now rewrite mul_1_l.
  - intros Hz. destruct fuel as [|fuel]; [lia|].
    destruct (power_negative base 1 fuel) as [_ ->];
      [reflexivity|assumption|simpl; lia|].
    simpl. now rewrite mul_1_l.
Qed.

Lemma power_small_exponents_witness :
  Utils.power 4 7 1 = Some (Return 7) /\
  Utils.power 4 7 2 = Some (Return (7 * 7)) /\
  Utils.power 4 7 3 = Some (Return (7 * (7 * 7))) /\
  (Utils.isZero 7 Utils.default_epsilon = false ->
   Utils.power 4 7 (-1) = Some (Return (1 / 7))).
Proof. apply (power_small_exponents 7 4). lia. Defined.

Lemma binexp_one (e : positive) : Spec.binexp PrimFloat.mul 1 1 e = 1.
Proof.
  induction e as [e IH|e IH|]; simpl;
    try replace (1 * 1) with 1 by reflexivity; auto.
Qed.

(** X18: [power 1 exponent] is 1 for every exponent above the most
    negative [int]. *)
Theorem power_of_one (exponent : Z) (fuel : nat) :
  (Int.min_signed < exponent <= Int.max_signed)%Z -> (34 <= fuel)%nat ->
  Utils.power fuel 1 exponent = Some (Return 1).
Proof.
  intros Hr Hfuel. destruct fuel as [|fuel]; [lia|].
  destruct exponent as [|e|e].
  - reflexivity.
  - rewrite power_positive.
    + now rewrite binexp_one.
    + pose proof (iterations_bound e ltac:(lia)). lia.
  - destruct (power_negative 1 e fuel) as [_ ->].
    + apply Hr.
    + reflexivity.
    + assert (Spec.iterations e <= 31)%nat; [|lia].
      apply iterations_bound. revert Hr.
      unfold Int.min_signed, Int.max_signed. lia.
    + now rewrite binexp_one.
Qed.

Lemma power_of_one_witness : Utils.power 34 1 (-1000) = Some (Return 1).
Proof.
  apply (power_of_one (-1000) 34); [|lia].
  unfold Int.min_signed, Int.max_signed. lia.
Defined.
